(** * nutsdb: the transactional List command protocol (tx_list.go)

    A shallow embedding of the list operations of [Tx] and the properties
    the specification states about them.

    Conventions of the embedding.
    - A Go [[]byte] and a Go [string] are both a Rocq [string]; the
      conversions [string(key)] and [[]byte(s)] are the identity.
    - A Go [int], [uint32] or [uint64] is a [Z]; the one conversion that can
      wrap, [uint64(time.Now().Unix())], is written out in [uint64].
    - The registry [tx.db.Index] maps a bucket to its [*list.List]; the file
      never replaces a registered pointer, so the pointer obtained by
      [getList bucket] is identified with the registry entry of [bucket] and
      every method call on it reads and writes that entry.
    - A Go function returning [(v, err)] returns a pair [(v, option error)],
      [None] being [nil].
    - A run-time panic (a nil dereference) is the outcome [None] of the
      monad [M]. *)

From stdpp Require Import base option list sorting gmap strings pretty.
From Stdlib Require Import ZArith Lia.

Local Open Scope Z_scope.
Local Open Scope string_scope.
Local Open Scope list_scope.

(** ** Errors, flags and records *)

(** The error values the file returns by name, and any other error value
    the collaborators (log, list structure, marshaling, matching) produce. *)
Inductive error : Type :=
  | ErrTxClosed
  | ErrBucket
  | ErrKeyNotFound
  | ErrSeparatorForListKey
  | ErrCount               (* list.ErrCount *)
  | ErrIndexOutOfRange     (* list.ErrIndexOutOfRange *)
  | ErrOther (msg : string).

#[global] Instance error_eq_dec : EqDecision error.
Proof. solve_decision. Defined.

(** The record flags used by the list operations (uint16 constants declared
    elsewhere in the package). *)
Inductive Flag : Type :=
  | DataDeleteFlag
  | DataLPushFlag
  | DataRPushFlag
  | DataLRemFlag
  | DataLPopFlag
  | DataRPopFlag
  | DataLSetFlag
  | DataLTrimFlag
  | DataLRemByIndex
  | DataExpireListFlag.

#[global] Instance Flag_eq_dec : EqDecision Flag.
Proof. solve_decision. Defined.

Inductive DataStructure : Type := DataStructureList.

(** [Persistent]: the ttl class every list record is written with. *)
Definition Persistent : Z := 0.

(** SeparatorForListKey represents separator for listKey. *)
Definition SeparatorForListKey : string := "|".

(** The arguments of one [tx.put] call: one command record. *)
Record Entry : Type := mkEntry {
  Bucket : string;
  Key : string;
  Value : string;
  EntryTTL : Z;
  EntryFlag : Flag;
  Timestamp : Z;
  Ds : DataStructure
}.

(** The fields of [list.List] the file reads and writes directly. *)
Record List : Type := mkList {
  Items : gmap string (list string);
  TTL : gmap string Z;
  TimeStamp : gmap string Z
}.

(** The transaction as the file sees it: whether it is closed, the clock
    reading [time.Now().Unix()], the registry of list structures and the
    records handed to the log so far. *)
Record Tx : Type := mkTx {
  closed : bool;
  now : Z;
  lists : gmap string List;
  pendingWrites : list Entry
}.

Definition uint64 (z : Z) : Z := z mod 2 ^ 64.

(** strconv2.IntToStr and strconv2.Int64ToStr: decimal rendering. *)
Definition IntToStr (n : Z) : string := pretty n.
Definition Int64ToStr (n : Z) : string := pretty n.

(** strings.Contains *)
Fixpoint Contains (s substr : string) : bool :=
  String.prefix substr s ||
  match s with
  | EmptyString => false
  | String _ s' => Contains s' substr
  end.

(** ** The collaborators

    The methods of [list.List], the log's [put], [MarshalInts], the pattern
    match used by [MatchForRange] and the order in which [range] walks a map
    are declared outside this file.  They are taken as parameters.  Every
    method of the list structure has a pointer receiver, so it returns the
    structure it leaves behind next to its result; it is given the clock
    reading because the structure consults the time. *)
Record Collab : Type := mkCollab {
  (* list.List.IsExpire on a registered structure *)
  l_IsExpire : Z -> List -> string -> bool * List;
  (* list.List.IsExpire on a nil receiver: [None] is a nil dereference *)
  nil_IsExpire : string -> option bool;
  l_RPeek : Z -> List -> string -> (string * option error) * List;
  l_LPeek : Z -> List -> string -> (string * option error) * List;
  l_Size : Z -> List -> string -> (Z * option error) * List;
  l_LRange : Z -> List -> string -> Z -> Z -> (list string * option error) * List;
  l_LRemNum : Z -> List -> string -> Z -> string -> (Z * option error) * List;
  l_LRemByIndexPreCheck : Z -> List -> string -> list Z -> (Z * option error) * List;
  l_GetListTTL : Z -> List -> string -> (Z * option error) * List;
  (* the verdict of the log on one record: [None] accepts it *)
  put_err : Tx -> Entry -> option error;
  MarshalInts : list Z -> string * option error;
  (* filepath.Match pattern key *)
  path_Match : string -> string -> bool * option error;
  (* the order in which [for key := range l.Items] yields the keys *)
  range_keys : gmap string (list string) -> list string
}.

(** ** The monad of the operations: state passing over [Tx], [None] on a
    panic. *)
Definition M (A : Type) : Type := Tx -> option (A * Tx).

Definition ret {A} (a : A) : M A := fun tx => Some (a, tx).

Definition bind {A B} (m : M A) (k : A -> M B) : M B :=
  fun tx => match m tx with
            | Some (a, tx') => k a tx'
            | None => None
            end.

Definition panic {A} : M A := fun _ => None.

Notation "'do' x <- m ; k" := (bind m (fun x => k))
  (at level 10, x pattern, m at level 100, k at level 200,
   format "'[v' 'do'  x  <-  m ;  '/' k ']'").

Definition isSome {A} (o : option A) : bool :=
  match o with Some _ => true | None => false end.

Section Operations.

Context (C : Collab).

(** Modelled from the spec: [tx.checkTxIsClosed] is declared outside this
    file; the spec calls it the transaction-open check, which fails with
    TransactionClosed. *)
Definition checkTxIsClosed : M (option error) :=
  fun tx => Some (if closed tx then Some ErrTxClosed else None, tx).

(** [tx.db.Index.getList(bucket)]: the registered structure, or nil. *)
Definition getList (bucket : string) : M (option List) :=
  fun tx => Some (lists tx !! bucket, tx).

Definition setList (bucket : string) (l : List) (tx : Tx) : Tx :=
  mkTx (closed tx) (now tx) (<[bucket := l]> (lists tx)) (pendingWrites tx).

(** A method call [l.m(...)] through the pointer registered for [bucket]:
    the method runs on the registered structure and what it leaves behind
    is the registered structure afterwards.  On a nil pointer the call is a
    nil dereference. *)
Definition call {R} (bucket : string) (m : Z -> List -> R * List) : M R :=
  fun tx => match lists tx !! bucket with
            | Some l => let '(r, l') := m (now tx) l in Some (r, setList bucket l' tx)
            | None => panic tx
            end.

(** A field read [l.F] through the pointer registered for [bucket]. *)
Definition readList {R} (bucket : string) (f : List -> R) : M R :=
  fun tx => match lists tx !! bucket with
            | Some l => Some (f l, tx)
            | None => panic tx
            end.

(** [time.Now().Unix()] *)
Definition timeNow : M Z := fun tx => Some (now tx, tx).

(** Modelled from the spec: [tx.put] is declared outside this file; the spec
    gives the contract of the durable-append collaborator,
    [append(bucket, key, value, persistenceClass, mutationKind, timestamp,
    dataStructureTag) -> Result<(), Error>].  A record the log accepts is
    added at the end of the pending writes; a refused record is not added. *)
Definition put (bucket key value : string) (ttl : Z) (flag : Flag)
    (timestamp : Z) (ds : DataStructure) : M (option error) :=
  fun tx =>
    let e := mkEntry bucket key value ttl flag timestamp ds in
    match put_err C tx e with
    | Some err => Some (Some err, tx)
    | None => Some (None, mkTx (closed tx) (now tx) (lists tx) (pendingWrites tx ++ [e]))
    end.

(** push sets values for list stored in the bucket at given bucket, key,
    flag and values. *)
Fixpoint push (bucket key : string) (flag : Flag) (values : list string)
    : M (option error) :=
  match values with
  | [] => ret None
  | value :: rest =>
      do t <- timeNow;
      do err <- put bucket key value Persistent flag (uint64 t) DataStructureList;
      match err with
      | Some e => ret (Some e)
      | None => push bucket key flag rest
      end
  end.

(** [l.IsExpire(string(key))] for [l := tx.db.Index.getList(bucket)], which
    may be nil. *)
Definition IsExpire (bucket key : string) : M bool :=
  do l <- getList bucket;
  match l with
  | Some _ => call bucket (fun t l => l_IsExpire C t l key)
  | None => match nil_IsExpire C key with
            | Some b => ret b
            | None => panic
            end
  end.

(** CheckExpire: the push of the Delete flag is called with no value. *)
Definition CheckExpire (bucket key : string) : M bool :=
  do expired <- IsExpire bucket key;
  if expired then
    do _ <- push bucket key DataDeleteFlag [];
    ret true
  else ret false.

(** RPeek returns the last element of the list stored in the bucket at given
    bucket and key.  (The size [l.RPeek] also returns is discarded.) *)
Definition RPeek (bucket key : string) : M (string * option error) :=
  do err <- checkTxIsClosed;
  match err with
  | Some e => ret ("", Some e)
  | None =>
      do l <- getList bucket;
      match l with
      | None => ret ("", Some ErrBucket)
      | Some _ =>
          do expired <- CheckExpire bucket key;
          if expired then ret ("", Some ErrKeyNotFound)
          else call bucket (fun t l => l_RPeek C t l key)
      end
  end.

(** RPop removes and returns the last element of the list stored in the
    bucket at given bucket and key. *)
Definition RPop (bucket key : string) : M (string * option error) :=
  do r <- RPeek bucket key;
  match snd r with
  | Some e => ret r
  | None =>
      do err <- push bucket key DataRPopFlag [fst r];
      ret (fst r, err)
  end.

(** RPush inserts the values at the tail of the list stored in the bucket at
    given bucket, key and values. *)
Definition RPush (bucket key : string) (values : list string) : M (option error) :=
  do err <- checkTxIsClosed;
  match err with
  | Some e => ret (Some e)
  | None =>
      do expired <- CheckExpire bucket key;
      if expired then ret (Some ErrKeyNotFound)
      else if Contains key SeparatorForListKey then ret (Some ErrSeparatorForListKey)
      else push bucket key DataRPushFlag values
  end.

(** LPush inserts the values at the head of the list stored in the bucket at
    given bucket, key and values. *)
Definition LPush (bucket key : string) (values : list string) : M (option error) :=
  do err <- checkTxIsClosed;
  match err with
  | Some e => ret (Some e)
  | None =>
      do expired <- CheckExpire bucket key;
      if expired then ret (Some ErrKeyNotFound)
      else if Contains key SeparatorForListKey then ret (Some ErrSeparatorForListKey)
      else push bucket key DataLPushFlag values
  end.

(** LPeek returns the first element of the list stored in the bucket at
    given bucket and key. *)
Definition LPeek (bucket key : string) : M (string * option error) :=
  do err <- checkTxIsClosed;
  match err with
  | Some e => ret ("", Some e)
  | None =>
      do l <- getList bucket;
      match l with
      | None => ret ("", Some ErrBucket)
      | Some _ =>
          do expired <- CheckExpire bucket key;
          if expired then ret ("", Some ErrKeyNotFound)
          else call bucket (fun t l => l_LPeek C t l key)
      end
  end.

(** LPop removes and returns the first element of the list stored in the
    bucket at given bucket and key. *)
Definition LPop (bucket key : string) : M (string * option error) :=
  do r <- LPeek bucket key;
  match snd r with
  | Some e => ret r
  | None =>
      do err <- push bucket key DataLPopFlag [fst r];
      ret (fst r, err)
  end.

(** LSize returns the size of key in the bucket at given bucket and key. *)
Definition LSize (bucket key : string) : M (Z * option error) :=
  do err <- checkTxIsClosed;
  match err with
  | Some e => ret (0, Some e)
  | None =>
      do l <- getList bucket;
      match l with
      | None => ret (0, Some ErrBucket)
      | Some _ =>
          do expired <- CheckExpire bucket key;
          if expired then ret (0, Some ErrKeyNotFound)
          else call bucket (fun t l => l_Size C t l key)
      end
  end.

(** LRange returns the specified elements of the list stored in the bucket
    at given bucket, key, start and end. *)
Definition LRange (bucket key : string) (start end_ : Z)
    : M (list string * option error) :=
  do err <- checkTxIsClosed;
  match err with
  | Some e => ret ([], Some e)
  | None =>
      do l <- getList bucket;
      match l with
      | None => ret ([], Some ErrBucket)
      | Some _ =>
          do expired <- CheckExpire bucket key;
          if expired then ret ([], Some ErrKeyNotFound)
          else call bucket (fun t l => l_LRange C t l key start end_)
      end
  end.

(** LRem removes the first count occurrences of elements equal to value from
    the list stored in the bucket at given bucket, key, count. *)
Definition LRem (bucket key : string) (count : Z) (value : string)
    : M (Z * option error) :=
  do r <- LSize bucket key;
  match snd r with
  | Some e => ret (0, Some e)
  | None =>
      let size := fst r in
      if bool_decide (count > size) || bool_decide (count < - size)
      then ret (0, Some ErrCount)
      else
        let newValue := IntToStr count +:+ SeparatorForListKey +:+ value in
        do err <- push bucket key DataLRemFlag [newValue];
        match err with
        | Some e => ret (0, Some e)
        | None =>
            do l <- getList bucket;
            match l with
            | None => ret (0, Some ErrBucket)
            | Some _ => call bucket (fun t l => l_LRemNum C t l key count value)
            end
        end
  end.

(** LSet sets the list element at index to value. *)
Definition LSet (bucket key : string) (index : Z) (value : string)
    : M (option error) :=
  do err <- checkTxIsClosed;
  match err with
  | Some e => ret (Some e)
  | None =>
      do l <- getList bucket;
      match l with
      | None => ret (Some ErrBucket)
      | Some _ =>
          do expired <- CheckExpire bucket key;
          if expired then ret (Some ErrKeyNotFound)
          else
            do ok <- readList bucket (fun l => isSome (Items l !! key));
            if negb ok then ret (Some ErrKeyNotFound)
            else
              do r <- LSize bucket key;
              let size := fst r in
              if bool_decide (index < 0) || bool_decide (index >= size)
              then ret (Some ErrIndexOutOfRange)
              else
                let newKey := key +:+ SeparatorForListKey +:+ IntToStr index in
                push bucket newKey DataLSetFlag [value]
      end
  end.

(** LTrim trims an existing list so that it will contain only the specified
    range of elements specified. *)
Definition LTrim (bucket key : string) (start end_ : Z) : M (option error) :=
  do err <- checkTxIsClosed;
  match err with
  | Some e => ret (Some e)
  | None =>
      do l <- getList bucket;
      match l with
      | None => ret (Some ErrBucket)
      | Some _ =>
          do expired <- CheckExpire bucket key;
          if expired then ret (Some ErrKeyNotFound)
          else
            do ok <- readList bucket (fun l => isSome (Items l !! key));
            if negb ok then ret (Some ErrKeyNotFound)
            else
              do r <- LRange bucket key start end_;
              match snd r with
              | Some e => ret (Some e)
              | None =>
                  let newKey := key +:+ SeparatorForListKey +:+ IntToStr start in
                  push bucket newKey DataLTrimFlag [IntToStr end_]
              end
      end
  end.

(** sort.Ints *)
Definition sort_Ints (indexes : list Z) : list Z := merge_sort Z.le indexes.

(** LRemByIndex remove the list element at specified index *)
Definition LRemByIndex (bucket key : string) (indexes : list Z)
    : M (Z * option error) :=
  do err <- checkTxIsClosed;
  match err with
  | Some e => ret (0, Some e)
  | None =>
      do l <- getList bucket;
      match l with
      | None => ret (0, Some ErrBucket)
      | Some _ =>
          do expired <- CheckExpire bucket key;
          if expired then ret (0, Some ErrKeyNotFound)
          else
            let indexes := sort_Ints indexes in
            do r <- call bucket (fun t l => l_LRemByIndexPreCheck C t l key indexes);
            let removedNum := fst r in
            if bool_decide (removedNum = 0) || isSome (snd r) then ret r
            else
              let d := MarshalInts C indexes in
              match snd d with
              | Some e => ret (0, Some e)
              | None =>
                  do err <- push bucket key DataLRemByIndex [fst d];
                  match err with
                  | Some e => ret (0, Some e)
                  | None => ret (removedNum, None)
                  end
              end
      end
  end.

(** Modelled from the spec: [MatchForRange] is declared outside this file.
    The spec: the enumerator applies a pattern match to the key and invokes
    the caller's callback; enumeration stops early when the callback signals
    termination or the match function errors.  The result also lists the
    keys the callback was invoked on.  The callback [f] answers [true] to go
    on and [false] to stop. *)
Definition MatchForRange (pattern key : string) (f : string -> bool)
    : list string * bool * option error :=
  match path_Match C pattern key with
  | (_, Some e) => ([], true, Some e)
  | (true, None) => ([key], negb (f key), None)
  | (false, None) => ([], false, None)
  end.

(** The body of [for key := range l.Items] over the keys still to come.  An
    entry removed from the map before the loop reaches it is not produced.
    Next to the error, the keys handed to the callback are returned, in the
    order of the calls. *)
Fixpoint LKeys_range (bucket pattern : string) (f : string -> bool)
    (keys : list string) : M (list string * option error) :=
  match keys with
  | [] => ret ([], None)
  | key :: rest =>
      do present <- readList bucket (fun l => isSome (Items l !! key));
      if negb present then LKeys_range bucket pattern f rest
      else
        do expired <- CheckExpire bucket key;
        if expired then LKeys_range bucket pattern f rest
        else
          let '(called, end_, err) := MatchForRange pattern key f in
          if end_ || isSome err then ret (called, err)
          else
            do r <- LKeys_range bucket pattern f rest;
            ret ((called ++ fst r)%list, snd r)
  end.

(** LKeys find all keys matching a given pattern *)
Definition LKeys (bucket pattern : string) (f : string -> bool)
    : M (list string * option error) :=
  do err <- checkTxIsClosed;
  match err with
  | Some e => ret ([], Some e)
  | None =>
      do l <- getList bucket;
      match l with
      | None => ret ([], Some ErrBucket)
      | Some l => LKeys_range bucket pattern f (range_keys C (Items l))
      end
  end.

Definition ExpireList (bucket key : string) (ttl : Z) : M (option error) :=
  do err <- checkTxIsClosed;
  match err with
  | Some e => ret (Some e)
  | None =>
      do l <- getList bucket;
      match l with
      | None => ret (Some ErrBucket)
      | Some _ =>
          do _ <- call bucket (fun _ l =>
                    (tt, mkList (Items l) (<[key := ttl]> (TTL l)) (TimeStamp l)));
          do _ <- call bucket (fun t l =>
                    (tt, mkList (Items l) (TTL l) (<[key := uint64 t]> (TimeStamp l))));
          let ttls := Int64ToStr ttl in
          do err <- push bucket key DataExpireListFlag [ttls];
          match err with
          | Some e => ret (Some e)
          | None => ret None
          end
      end
  end.

Definition GetListTTL (bucket key : string) : M (Z * option error) :=
  do err <- checkTxIsClosed;
  match err with
  | Some e => ret (0, Some e)
  | None =>
      do l <- getList bucket;
      match l with
      | None => ret (0, Some ErrBucket)
      | Some _ => call bucket (fun t l => l_GetListTTL C t l key)
      end
  end.

End Operations.

(** ** The operations as one family

    The properties stated for every operation range over [Call]. *)
Inductive Call : Type :=
  | CallRPop (bucket key : string)
  | CallRPeek (bucket key : string)
  | CallRPush (bucket key : string) (values : list string)
  | CallLPush (bucket key : string) (values : list string)
  | CallLPop (bucket key : string)
  | CallLPeek (bucket key : string)
  | CallLSize (bucket key : string)
  | CallLRange (bucket key : string) (start end_ : Z)
  | CallLRem (bucket key : string) (count : Z) (value : string)
  | CallLSet (bucket key : string) (index : Z) (value : string)
  | CallLTrim (bucket key : string) (start end_ : Z)
  | CallLRemByIndex (bucket key : string) (indexes : list Z)
  | CallLKeys (bucket pattern : string) (f : string -> bool)
  | CallExpireList (bucket key : string) (ttl : Z)
  | CallGetListTTL (bucket key : string).

(** What a call returns: its value, if it has one, and its error. *)
Inductive Reply : Type :=
  | ReplyErr (err : option error)
  | ReplyItem (item : string) (err : option error)
  | ReplyInt (n : Z) (err : option error)
  | ReplyItems (items : list string) (err : option error).

Definition reply_err (r : Reply) : option error :=
  match r with
  | ReplyErr e | ReplyItem _ e | ReplyInt _ e | ReplyItems _ e => e
  end.

Definition bucket_of (c : Call) : string :=
  match c with
  | CallRPop b _ | CallRPeek b _ | CallRPush b _ _ | CallLPush b _ _
  | CallLPop b _ | CallLPeek b _ | CallLSize b _ | CallLRange b _ _ _
  | CallLRem b _ _ _ | CallLSet b _ _ _ | CallLTrim b _ _ _
  | CallLRemByIndex b _ _ | CallLKeys b _ _ | CallExpireList b _ _
  | CallGetListTTL b _ => b
  end.

Definition is_push (c : Call) : bool :=
  match c with
  | CallRPush _ _ _ | CallLPush _ _ _ => true
  | _ => false
  end.

Definition fmapM {A B} (g : A -> B) (m : M A) : M B :=
  do a <- m; ret (g a).

Definition run (C : Collab) (c : Call) : M Reply :=
  match c with
  | CallRPop b k => fmapM (fun r => ReplyItem (fst r) (snd r)) (RPop C b k)
  | CallRPeek b k => fmapM (fun r => ReplyItem (fst r) (snd r)) (RPeek C b k)
  | CallRPush b k vs => fmapM ReplyErr (RPush C b k vs)
  | CallLPush b k vs => fmapM ReplyErr (LPush C b k vs)
  | CallLPop b k => fmapM (fun r => ReplyItem (fst r) (snd r)) (LPop C b k)
  | CallLPeek b k => fmapM (fun r => ReplyItem (fst r) (snd r)) (LPeek C b k)
  | CallLSize b k => fmapM (fun r => ReplyInt (fst r) (snd r)) (LSize C b k)
  | CallLRange b k s e =>
      fmapM (fun r => ReplyItems (fst r) (snd r)) (LRange C b k s e)
  | CallLRem b k n v => fmapM (fun r => ReplyInt (fst r) (snd r)) (LRem C b k n v)
  | CallLSet b k i v => fmapM ReplyErr (LSet C b k i v)
  | CallLTrim b k s e => fmapM ReplyErr (LTrim C b k s e)
  | CallLRemByIndex b k ixs =>
      fmapM (fun r => ReplyInt (fst r) (snd r)) (LRemByIndex C b k ixs)
  | CallLKeys b p f => fmapM (fun r => ReplyErr (snd r)) (LKeys C b p f)
  | CallExpireList b k ttl => fmapM ReplyErr (ExpireList C b k ttl)
  | CallGetListTTL b k =>
      fmapM (fun r => ReplyInt (fst r) (snd r)) (GetListTTL C b k)
  end.

(** The errors of the validation steps. *)
Definition validation (e : error) : bool :=
  match e with
  | ErrTxClosed | ErrBucket | ErrKeyNotFound | ErrSeparatorForListKey
  | ErrCount | ErrIndexOutOfRange => true
  | ErrOther _ => false
  end.

(** The record a push hands to the log for one value. *)
Definition entry (bucket key : string) (flag : Flag) (t : Z) (value : string)
    : Entry :=
  mkEntry bucket key value Persistent flag (uint64 t) DataStructureList.

(** The transaction with further records at the end of its pending writes. *)
Definition addLog (tx : Tx) (es : list Entry) : Tx :=
  mkTx (closed tx) (now tx) (lists tx) (pendingWrites tx ++ es).

(** The structure after [ExpireList] has written its two tables. *)
Definition withTTL (l : List) (key : string) (ttl t : Z) : List :=
  mkList (Items l) (<[key := ttl]> (TTL l)) (<[key := uint64 t]> (TimeStamp l)).

(** ** A sample set of collaborators

    A small list structure whose queries leave it as it is, and a log that
    refuses a record once two are pending.  It is used to run the
    operations on concrete transactions. *)
Module Sample.

Definition expired (t : Z) (l : List) (key : string) : bool :=
  match TTL l !! key, TimeStamp l !! key with
  | Some ttl, Some ts => negb (bool_decide (ttl = 0)) && bool_decide (t - ts > ttl)
  | _, _ => false
  end.

Definition items (l : List) (key : string) : option (list string) :=
  Items l !! key.

Definition notFound : error := ErrOther "list not found".

Definition peekLast (t : Z) (l : List) (key : string)
    : (string * option error) * List :=
  match items l key with
  | Some vs => match last vs with
               | Some v => ((v, None), l)
               | None => (("", Some notFound), l)
               end
  | None => (("", Some notFound), l)
  end.

Definition peekFirst (t : Z) (l : List) (key : string)
    : (string * option error) * List :=
  match items l key with
  | Some (v :: _) => ((v, None), l)
  | _ => (("", Some notFound), l)
  end.

Definition size (t : Z) (l : List) (key : string) : (Z * option error) * List :=
  match items l key with
  | Some vs => ((Z.of_nat (length vs), None), l)
  | None => ((0, Some notFound), l)
  end.

Definition range (t : Z) (l : List) (key : string) (start end_ : Z)
    : (list string * option error) * List :=
  match items l key with
  | Some vs =>
      let n := Z.of_nat (length vs) in
      let s := if bool_decide (start < 0) then n + start else start in
      let e := if bool_decide (end_ < 0) then n + end_ else end_ in
      if bool_decide (0 <= s) && bool_decide (s <= e) && bool_decide (e < n)
      then ((take (Z.to_nat (e - s + 1)) (drop (Z.to_nat s) vs), None), l)
      else (([], Some (ErrOther "wrong start or end")), l)
  | None => (([], Some notFound), l)
  end.

Definition remNum (t : Z) (l : List) (key : string) (count : Z) (value : string)
    : (Z * option error) * List :=
  match items l key with
  | Some vs =>
      let n := Z.of_nat (length (filter (fun v => v = value) vs)) in
      let c := Z.abs count in
      ((if bool_decide (c = 0) then n else Z.min c n, None), l)
  | None => ((0, Some notFound), l)
  end.

Definition preCheck (t : Z) (l : List) (key : string) (indexes : list Z)
    : (Z * option error) * List :=
  match items l key with
  | Some vs =>
      let n := Z.of_nat (length vs) in
      ((Z.of_nat (length (filter (fun i => 0 <= i < n) indexes)), None), l)
  | None => ((0, Some notFound), l)
  end.

Definition getTTL (t : Z) (l : List) (key : string) : (Z * option error) * List :=
  match TTL l !! key with
  | Some ttl => ((ttl, None), l)
  | None => ((0, Some ErrKeyNotFound), l)
  end.

Definition logVerdict (tx : Tx) (e : Entry) : option error :=
  if bool_decide (2 <= length (pendingWrites tx))%nat
  then Some (ErrOther "too many pending writes")
  else None.

Definition marshal (indexes : list Z) : string * option error :=
  (String.concat "," (pretty <$> indexes), None).

Definition pathMatch (pattern key : string) : bool * option error :=
  if bool_decide (pattern = "[") then (false, Some (ErrOther "syntax error in pattern"))
  else (bool_decide (pattern = "*") || bool_decide (pattern = key), None).

Definition collab (nilExpire : option bool) : Collab :=
  mkCollab (fun t l k => (expired t l k, l)) (fun _ => nilExpire)
           peekLast peekFirst size range remNum preCheck getTTL
           logVerdict marshal pathMatch (fun m => (map_to_list m).*1).

(** A bucket ["b"] holding the list ["mylist"] = [A; B; C] and a list
    ["old"] whose time to live of 10 seconds, set at time 100, ran out. *)
Definition l0 : List :=
  mkList (<["mylist" := ["A"; "B"; "C"]]> (<["old" := ["X"]]> ∅))
         (<["old" := 10]> ∅) (<["old" := 100]> ∅).

Definition tx0 : Tx := mkTx false 1000 (<["b" := l0]> ∅) [].

(** The same transaction after it was closed. *)
Definition txClosed : Tx := mkTx true 1000 (<["b" := l0]> ∅) [].

(** The same transaction with two records pending: the sample log refuses
    any further record. *)
Definition txFull : Tx :=
  mkTx false 1000 (<["b" := l0]> ∅)
       [entry "b" "mylist" DataRPushFlag 1000 "D";
        entry "b" "mylist" DataRPushFlag 1000 "E"].

(** The same transaction with a Delete record pending, as a replay or
    another data structure could have left it. *)
Definition tombstone : Entry :=
  mkEntry "b" "old" "" 0 DataDeleteFlag 999 DataStructureList.

Definition txDeleted : Tx := mkTx false 1000 (<["b" := l0]> ∅) [tombstone].

(** An [IsExpire] that evicts: a key it reports expired is removed from the
    items and from the two tables of the structure. *)
Definition evict (t : Z) (l : List) (key : string) : bool * List :=
  if expired t l key
  then (true, mkList (delete key (Items l)) (delete key (TTL l))
                     (delete key (TimeStamp l)))
  else (false, l).

(** The sample collaborators with the evicting [IsExpire]. *)
Definition collabEvict : Collab :=
  mkCollab evict (fun _ => Some false)
           peekLast peekFirst size range remNum preCheck getTTL
           logVerdict marshal pathMatch (fun m => (map_to_list m).*1).

(** An [LRemNum] that reports ErrCount when the list holds fewer elements
    equal to the value than the count asks for. *)
Definition remNumStrict (t : Z) (l : List) (key : string) (count : Z)
    (value : string) : (Z * option error) * List :=
  match items l key with
  | Some vs =>
      let n := Z.of_nat (length (filter (fun v => v = value) vs)) in
      if bool_decide (Z.abs count > n) then ((0, Some ErrCount), l)
      else ((if bool_decide (count = 0) then n else Z.abs count, None), l)
  | None => ((0, Some notFound), l)
  end.

(** The sample collaborators with that [LRemNum]. *)
Definition collabStrict : Collab :=
  mkCollab (fun t l k => (expired t l k, l)) (fun _ => Some false)
           peekLast peekFirst size range remNumStrict preCheck getTTL
           logVerdict marshal pathMatch (fun m => (map_to_list m).*1).

(** A transaction whose registry has no bucket at all. *)
Definition txEmpty : Tx := mkTx false 1000 ∅ [].

End Sample.


(** What a multi-value push against the state [tx1] may come to: the log
    took the first [n] values, one record each and in their order, and
    either these are all the values and the result is nil, or the log
    refused value [n] and the result is its error. *)
Definition pushed (C : Collab) (bucket key : string) (flag : Flag)
    (values : list string) (tx1 : Tx) (out : option (option error * Tx)) : Prop :=
  ∃ (n : nat) (r : option error),
    out = Some (r, addLog tx1 (entry bucket key flag (now tx1) <$> take n values)) ∧
    (r = None ∧ n = length values ∨
     ∃ v e, values !! n = Some v ∧ r = Some e ∧
            put_err C (addLog tx1 (entry bucket key flag (now tx1) <$> take n values))
                    (entry bucket key flag (now tx1) v) = Some e).

(** The queries of the list structure leave the structure as it is.
    ([LRemNum], the removal, is not among them.) *)
Record Pure (C : Collab) : Prop := mkPure {
  pure_IsExpire : ∀ t l k, (l_IsExpire C t l k).2 = l;
  pure_RPeek : ∀ t l k, (l_RPeek C t l k).2 = l;
  pure_LPeek : ∀ t l k, (l_LPeek C t l k).2 = l;
  pure_Size : ∀ t l k, (l_Size C t l k).2 = l;
  pure_LRange : ∀ t l k s e, (l_LRange C t l k s e).2 = l;
  pure_LRemByIndexPreCheck : ∀ t l k ixs, (l_LRemByIndexPreCheck C t l k ixs).2 = l;
  pure_GetListTTL : ∀ t l k, (l_GetListTTL C t l k).2 = l
}.

(** [tx'] is [tx] but for the structure registered for [bucket], which a
    method of the structure may have replaced: nothing was handed to the
    log, and if the queries of the structure are pure nothing changed. *)
Definition untouched (C : Collab) (bucket : string) (tx tx' : Tx) : Prop :=
  (tx' = tx ∨ ∃ l', is_Some (lists tx !! bucket) ∧ tx' = setList bucket l' tx) ∧
  (Pure C -> tx' = tx).

(** The log passes its own errors, none of the validation errors. *)
Definition LogErrorsForeign (C : Collab) : Prop :=
  ∀ tx e err, put_err C tx e = Some err -> validation err = false.

(** The shape RPeek, LPeek, LSize and LRange share: the three checks, then
    one query of the structure. *)
Definition guardedQuery {A} (C : Collab) (bucket key : string) (dflt : A)
    (m : Z -> List -> (A * option error) * List) : M (A * option error) :=
  do err <- checkTxIsClosed;
  match err with
  | Some e => ret (dflt, Some e)
  | None =>
      do l <- getList bucket;
      match l with
      | None => ret (dflt, Some ErrBucket)
      | Some _ =>
          do expired <- CheckExpire C bucket key;
          if expired then ret (dflt, Some ErrKeyNotFound)
          else call bucket m
      end
  end.

(** [GetListTTL] of the structure returns the stored time to live of a key
    whose entry was set at the current clock reading. *)
Definition TTLStored (C : Collab) : Prop :=
  ∀ t l k v,
    TTL l !! k = Some v -> TimeStamp l !! k = Some (uint64 t) ->
    (l_GetListTTL C t l k).1 = (v, None).

(** The enumeration of LKeys seen from the structure [l] at time [t]: a key
    is visited when it is among the items and not reported expired; a
    visited key is handed to the callback when the pattern matches it; the
    enumeration stops at a visited key when the match reports an error or
    the callback, given the matching key, answers false. *)
Definition visited (C : Collab) (t : Z) (l : List) (key : string) : bool :=
  isSome (Items l !! key) && negb (l_IsExpire C t l key).1.

Definition handed (C : Collab) (t : Z) (l : List) (pattern key : string) : bool :=
  visited C t l key && bool_decide (path_Match C pattern key = (true, None)).

Definition stops (C : Collab) (t : Z) (l : List) (pattern : string)
    (f : string -> bool) (key : string) : bool :=
  visited C t l key &&
  (isSome (path_Match C pattern key).2 ||
   ((path_Match C pattern key).1 && negb (f key))).

(** What the enumeration over [keys] returns when no query changes the
    structure: it runs through all the keys, or up to the first key it
    stops at; the keys handed to the callback are listed in order. *)
Definition enumerated (C : Collab) (t : Z) (l : List) (pattern : string)
    (f : string -> bool) (keys : list string)
    (r : list string * option error) : Prop :=
  (Forall (fun k => stops C t l pattern f k = false) keys ∧
   r = (filter (fun k => handed C t l pattern k = true) keys, None)) ∨
  (∃ ks1 k ks2,
     keys = ks1 ++ k :: ks2 ∧
     Forall (fun k => stops C t l pattern f k = false) ks1 ∧
     stops C t l pattern f k = true ∧
     r = (filter (fun k => handed C t l pattern k = true) (ks1 ++ [k]),
          (path_Match C pattern k).2)).

(** The flag, key and values of a push call. *)
Definition pushCall (c : Call) : option (Flag * string * list string) :=
  match c with
  | CallRPush _ k vs => Some (DataRPushFlag, k, vs)
  | CallLPush _ k vs => Some (DataLPushFlag, k, vs)
  | _ => None
  end.

(** One call of a query method of the list structure: the structure the
    method leaves behind. *)
Inductive query_step (C : Collab) (t : Z) (l : List) : List -> Prop :=
  | step_IsExpire (key : string) : query_step C t l (l_IsExpire C t l key).2
  | step_RPeek (key : string) : query_step C t l (l_RPeek C t l key).2
  | step_LPeek (key : string) : query_step C t l (l_LPeek C t l key).2
  | step_Size (key : string) : query_step C t l (l_Size C t l key).2
  | step_LRange (key : string) (start end_ : Z) :
      query_step C t l (l_LRange C t l key start end_).2
  | step_PreCheck (key : string) (indexes : list Z) :
      query_step C t l (l_LRemByIndexPreCheck C t l key indexes).2
  | step_GetListTTL (key : string) : query_step C t l (l_GetListTTL C t l key).2.

(** [l'] is what a sequence of query calls made of [l]. *)
Definition queried (C : Collab) (t : Z) : List -> List -> Prop :=
  rtc (query_step C t).

(** [tx'] is [tx], or [tx] with the structure of [bucket] replaced by what
    query calls of the structure made of it: nothing else differs, and
    nothing was handed to the log. *)
Definition quiet (C : Collab) (bucket : string) (tx tx' : Tx) : Prop :=
  tx' = tx ∨
  ∃ l l', lists tx !! bucket = Some l ∧ queried C (now tx) l l' ∧
          tx' = setList bucket l' tx.

(** What a call that returned the error [e] has done to the state.  Either
    it was quiet.  Or it is a push of several values and the log refused
    value [n > 0]: the records of the values before it are pending.  Or it
    is ExpireList and the log refused its record: the two tables hold the
    new entry.  Or it is LRem and the structure's [LRemNum], which runs
    after the record of the call is pending, reported the error. *)
Definition failing_effect (C : Collab) (c : Call) (tx tx' : Tx) (e : error)
    : Prop :=
  quiet C (bucket_of c) tx tx' ∨
  (∃ flag key values tx1 (n : nat) v,
     pushCall c = Some (flag, key, values) ∧
     quiet C (bucket_of c) tx tx1 ∧
     tx' = addLog tx1 (entry (bucket_of c) key flag (now tx) <$> take n values) ∧
     (0 < n)%nat ∧ values !! n = Some v ∧
     put_err C tx' (entry (bucket_of c) key flag (now tx) v) = Some e) ∨
  (∃ key ttl l,
     c = CallExpireList (bucket_of c) key ttl ∧
     lists tx !! bucket_of c = Some l ∧
     tx' = setList (bucket_of c) (withTTL l key ttl (now tx)) tx ∧
     put_err C tx' (entry (bucket_of c) key DataExpireListFlag (now tx)
                          (Int64ToStr ttl)) = Some e) ∨
  (∃ key count value tx1 l1,
     c = CallLRem (bucket_of c) key count value ∧
     quiet C (bucket_of c) tx tx1 ∧
     lists tx1 !! bucket_of c = Some l1 ∧
     tx' = setList (bucket_of c)
             (l_LRemNum C (now tx) l1 key count value).2
             (addLog tx1 [entry (bucket_of c) key DataLRemFlag (now tx)
                            (IntToStr count +:+ SeparatorForListKey +:+ value)]) ∧
     (l_LRemNum C (now tx) l1 key count value).1.2 = Some e).

(** The structure after the body of the loop of LKeys has dealt with [key]:
    a key no longer among the items is not reached, otherwise the
    structure is what [IsExpire] left. *)
Definition after_gate (C : Collab) (t : Z) (l : List) (key : string) : List :=
  if isSome (Items l !! key) then (l_IsExpire C t l key).2 else l.

(** The keys of a walk, each with the structure registered when the loop
    comes to it. *)
Fixpoint visits (C : Collab) (t : Z) (keys : list string) (l : List)
    : list (string * List) :=
  match keys with
  | [] => []
  | key :: rest => (key, l) :: visits C t rest (after_gate C t l key)
  end.

(** What the enumeration over [keys], started on the structure [l], comes
    to.  The loop deals with the keys [seen]: all of them if it stops at
    none, or those up to and including the first key it stops at (the
    match reported an error, which is returned, or the callback answered
    false).  A key is judged on the structure registered when the loop
    comes to it: it is passed over when it is no longer among the items or
    the gate reports it expired, and it is handed to the callback when it
    is visited and the pattern matches it.  [r] holds the keys handed to
    the callback, in order, and the error; [l'] is the structure left. *)
Definition walked (C : Collab) (t : Z) (pattern : string) (f : string -> bool)
    (keys : list string) (l : List) (r : list string * option error)
    (l' : List) : Prop :=
  ∃ seen err,
    ((seen = keys ∧ err = None ∧
      Forall (fun v => stops C t v.2 pattern f v.1 = false) (visits C t keys l)) ∨
     (∃ ks1 k ks2,
        keys = ks1 ++ k :: ks2 ∧ seen = ks1 ++ [k] ∧
        Forall (fun v => stops C t v.2 pattern f v.1 = false) (visits C t ks1 l) ∧
        stops C t (foldl (after_gate C t) l ks1) pattern f k = true ∧
        err = (path_Match C pattern k).2)) ∧
    r = ((filter (fun v => handed C t v.2 pattern v.1 = true)
                 (visits C t seen l)).*1, err) ∧
    l' = foldl (after_gate C t) l seen.

(** The key an operation passes to the expiration gate, if it has one. *)
Definition gate_key (c : Call) : option string :=
  match c with
  | CallRPop _ k | CallRPeek _ k | CallRPush _ k _ | CallLPush _ k _
  | CallLPop _ k | CallLPeek _ k | CallLSize _ k | CallLRange _ k _ _
  | CallLRem _ k _ _ | CallLSet _ k _ _ | CallLTrim _ k _ _
  | CallLRemByIndex _ k _ => Some k
  | CallLKeys _ _ _ | CallExpireList _ _ _ | CallGetListTTL _ _ => None
  end.

(** The flag of the records an operation hands to the log, if it hands
    any. *)
Definition flag_of (c : Call) : option Flag :=
  match c with
  | CallRPop _ _ => Some DataRPopFlag
  | CallRPush _ _ _ => Some DataRPushFlag
  | CallLPush _ _ _ => Some DataLPushFlag
  | CallLPop _ _ => Some DataLPopFlag
  | CallLRem _ _ _ _ => Some DataLRemFlag
  | CallLSet _ _ _ _ => Some DataLSetFlag
  | CallLTrim _ _ _ _ => Some DataLTrimFlag
  | CallLRemByIndex _ _ _ => Some DataLRemByIndex
  | CallExpireList _ _ _ => Some DataExpireListFlag
  | CallRPeek _ _ | CallLPeek _ _ | CallLSize _ _ | CallLRange _ _ _ _
  | CallLKeys _ _ _ | CallGetListTTL _ _ => None
  end.

(** How many records an operation hands to the log at most. *)
Definition records_bound (c : Call) : nat :=
  match c with
  | CallRPush _ _ values | CallLPush _ _ values => length values
  | CallRPop _ _ | CallLPop _ _ | CallLRem _ _ _ _ | CallLSet _ _ _ _
  | CallLTrim _ _ _ _ | CallLRemByIndex _ _ _ | CallExpireList _ _ _ => 1%nat
  | CallRPeek _ _ | CallLPeek _ _ | CallLSize _ _ | CallLRange _ _ _ _
  | CallLKeys _ _ _ | CallGetListTTL _ _ => 0%nat
  end.

(** [tx'] comes from [tx] by steps of an operation on [bucket]: the
    transaction is as open and the clock as before, the registry has the
    same buckets and the same structures for the other buckets, and the
    pending writes are those of [tx] followed by at most [n] records, each
    of which satisfies [P] at the clock reading. *)
Definition framed (P : Z -> Entry -> Prop) (n : nat) (bucket : string)
    (tx tx' : Tx) : Prop :=
  closed tx' = closed tx ∧ now tx' = now tx ∧
  dom (lists tx') = dom (lists tx) ∧
  (∀ b', b' ≠ bucket -> lists tx' !! b' = lists tx !! b') ∧
  ∃ es, pendingWrites tx' = pendingWrites tx ++ es ∧
        (length es <= n)%nat ∧ Forall (P (now tx)) es.

(** Every run of [m] is framed. *)
Definition keeps {A} (P : Z -> Entry -> Prop) (n : nat) (bucket : string)
    (m : M A) : Prop :=
  ∀ tx a tx', m tx = Some (a, tx') -> framed P n bucket tx tx'.

(** The fixed fields of a list record of [bucket] with the flag [fl],
    written at time [t]. *)
Definition stamped (bucket : string) (fl : option Flag) (t : Z) (e : Entry)
    : Prop :=
  Bucket e = bucket ∧ Some (EntryFlag e) = fl ∧ EntryTTL e = Persistent ∧
  Timestamp e = uint64 t ∧ 0 <= Timestamp e < 2 ^ 64 ∧ Ds e = DataStructureList.

(** The record LRem, LSet, LTrim and ExpireList build from their arguments
    at time [t]. *)
Definition record_of (c : Call) (t : Z) : option Entry :=
  match c with
  | CallLRem b k count value =>
      Some (entry b k DataLRemFlag t (IntToStr count +:+ SeparatorForListKey +:+ value))
  | CallLSet b k index value =>
      Some (entry b (k +:+ SeparatorForListKey +:+ IntToStr index) DataLSetFlag t value)
  | CallLTrim b k start end_ =>
      Some (entry b (k +:+ SeparatorForListKey +:+ IntToStr start) DataLTrimFlag t
                  (IntToStr end_))
  | CallExpireList b k ttl =>
      Some (entry b k DataExpireListFlag t (Int64ToStr ttl))
  | _ => None
  end.

(** [m] returns, and keeps the structure of [bucket] registered, whenever
    it starts with the structure registered. *)
Definition safe {A} (bucket : string) (m : M A) : Prop :=
  ∀ tx, is_Some (lists tx !! bucket) ->
        ∃ a tx', m tx = Some (a, tx') ∧ is_Some (lists tx' !! bucket).

(** The records an operation may hand to the log at time [t]. *)
Definition emits (C : Collab) (c : Call) (t : Z) (e : Entry) : Prop :=
  match c with
  | CallRPop b k => ∃ item, e = entry b k DataRPopFlag t item
  | CallLPop b k => ∃ item, e = entry b k DataLPopFlag t item
  | CallRPush b k values => ∃ v, v ∈ values ∧ e = entry b k DataRPushFlag t v
  | CallLPush b k values => ∃ v, v ∈ values ∧ e = entry b k DataLPushFlag t v
  | CallLRemByIndex b k indexes =>
      e = entry b k DataLRemByIndex t (MarshalInts C (sort_Ints indexes)).1
  | CallLRem _ _ _ _ | CallLSet _ _ _ _ | CallLTrim _ _ _ _
  | CallExpireList _ _ _ => Some e = record_of c t
  | CallRPeek _ _ | CallLPeek _ _ | CallLSize _ _ | CallLRange _ _ _ _
  | CallLKeys _ _ _ | CallGetListTTL _ _ => False
  end.

(** The separator character does not occur in [s]. *)
Definition sepfree (s : string) : Prop :=
  ¬ List.In (Ascii.ascii_of_nat 124) (String.list_ascii_of_string s).

(** ** Basic facts about the building blocks *)

Lemma addLog_nil (tx : Tx) : addLog tx [] = tx.
Proof. destruct tx; unfold addLog; simpl. by rewrite app_nil_r. Qed.

Lemma addLog_app (tx : Tx) (es es' : list Entry) :
  addLog (addLog tx es) es' = addLog tx (es ++ es').
Proof. unfold addLog; simpl. by rewrite app_assoc. Qed.

Lemma setList_same (bucket : string) (l : List) (tx : Tx) :
  lists tx !! bucket = Some l -> setList bucket l tx = tx.
Proof.
  intros Hl. destruct tx as [c t ls ws]; unfold setList; simpl in *.
  by rewrite insert_id.
Qed.

Lemma setList_lookup (bucket : string) (l : List) (tx : Tx) :
  lists (setList bucket l tx) !! bucket = Some l.
Proof. unfold setList; simpl. by rewrite lookup_insert_eq. Qed.

Lemma setList_lookup_ne (bucket b' : string) (l : List) (tx : Tx) :
  b' ≠ bucket -> lists (setList bucket l tx) !! b' = lists tx !! b'.
Proof. intros Hne. unfold setList; simpl. by rewrite lookup_insert_ne. Qed.

Lemma setList_setList (bucket : string) (l l' : List) (tx : Tx) :
  setList bucket l' (setList bucket l tx) = setList bucket l' tx.
Proof. unfold setList; simpl. by rewrite insert_insert_eq. Qed.

Section Facts.

Context (C : Collab).

Implicit Types (tx : Tx) (bucket key : string) (flag : Flag).

Lemma put_spec bucket key value flag t tx :
  put C bucket key value Persistent flag (uint64 t) DataStructureList tx =
  match put_err C tx (entry bucket key flag t value) with
  | Some e => Some (Some e, tx)
  | None => Some (None, addLog tx [entry bucket key flag t value])
  end.
Proof. reflexivity. Qed.

Lemma push_cons bucket key flag value rest tx :
  push C bucket key flag (value :: rest) tx =
  match put_err C tx (entry bucket key flag (now tx) value) with
  | Some e => Some (Some e, tx)
  | None => push C bucket key flag rest (addLog tx [entry bucket key flag (now tx) value])
  end.
Proof.
  simpl. unfold bind, timeNow. rewrite put_spec.
  by destruct (put_err C tx _).
Qed.

Lemma push_one bucket key flag value tx :
  push C bucket key flag [value] tx =
  match put_err C tx (entry bucket key flag (now tx) value) with
  | Some e => Some (Some e, tx)
  | None => Some (None, addLog tx [entry bucket key flag (now tx) value])
  end.
Proof. rewrite push_cons. by destruct (put_err C tx _). Qed.

(** What a push of several values does: the log accepts the first [n]
    values, one record each, in the order of the values; either these are
    all the values and the push succeeds, or the log refuses value [n] and
    the push returns that error with the records of the values before it
    still pending. *)
Lemma push_spec bucket key flag (values : list string) tx :
  ∃ (n : nat) (r : option error),
    push C bucket key flag values tx =
      Some (r, addLog tx (entry bucket key flag (now tx) <$> take n values)) ∧
    (r = None ∧ n = length values ∨
     ∃ v e, values !! n = Some v ∧ r = Some e ∧
            put_err C (addLog tx (entry bucket key flag (now tx) <$> take n values))
                    (entry bucket key flag (now tx) v) = Some e).
Proof.
  revert tx. induction values as [|v vs IH]; intros tx.
  - exists 0%nat, None. rewrite take_0, fmap_nil, addLog_nil.
    split; [done | by left].
  - rewrite push_cons.
    destruct (put_err C tx (entry bucket key flag (now tx) v)) as [e|] eqn:Hput.
    + exists 0%nat, (Some e). rewrite take_0, fmap_nil, addLog_nil.
      split; [done|]. right. by exists v, e.
    + destruct (IH (addLog tx [entry bucket key flag (now tx) v]))
        as (n & r & Hpush & Hcase).
      rewrite addLog_app in Hpush. change (now (addLog tx _)) with (now tx) in *.
      exists (S n), r. rewrite firstn_cons, fmap_cons. split; [done|].
      destruct Hcase as [[-> ->]|(v' & e & Hv' & -> & Hrefuse)]; [by left|].
      right. exists v', e. rewrite addLog_app in Hrefuse. done.
Qed.

(** The expiration gate on a registered structure: the answer and the
    structure are those of [IsExpire]; nothing is handed to the log. *)
Lemma CheckExpire_registered bucket key tx (l : List) :
  lists tx !! bucket = Some l ->
  CheckExpire C bucket key tx =
    Some (fst (l_IsExpire C (now tx) l key),
          setList bucket (snd (l_IsExpire C (now tx) l key)) tx).
Proof.
  intros Hl. unfold CheckExpire, IsExpire, bind, getList, call.
  rewrite Hl; cbn beta iota; rewrite Hl.
  destruct (l_IsExpire C (now tx) l key) as [[] l']; reflexivity.
Qed.

(** The expiration gate on a bucket without a structure. *)
Lemma CheckExpire_nil bucket key tx :
  lists tx !! bucket = None ->
  CheckExpire C bucket key tx =
    match nil_IsExpire C key with
    | Some b => Some (b, tx)
    | None => None
    end.
Proof.
  intros Hl. unfold CheckExpire, IsExpire, bind, getList. rewrite Hl.
  destruct (nil_IsExpire C key) as [[]|]; reflexivity.
Qed.

(** The gate hands nothing to the log and touches at most the structure of
    its bucket. *)
Lemma CheckExpire_frame bucket key tx (r : bool) tx' :
  CheckExpire C bucket key tx = Some (r, tx') ->
  closed tx' = closed tx ∧ now tx' = now tx ∧
  pendingWrites tx' = pendingWrites tx ∧
  (∀ b', b' ≠ bucket -> lists tx' !! b' = lists tx !! b') ∧
  (is_Some (lists tx' !! bucket) ↔ is_Some (lists tx !! bucket)).
Proof.
  destruct (lists tx !! bucket) as [l|] eqn:Hl.
  - rewrite (CheckExpire_registered _ _ _ l Hl). intros [= <- <-].
    repeat split; try done.
    + intros b' Hne. by apply setList_lookup_ne.
    + rewrite setList_lookup. by eauto.
  - rewrite (CheckExpire_nil _ _ _ Hl).
    destruct (nil_IsExpire C key); intros [= <- <-].
    repeat split; try done; by rewrite Hl.
Qed.

End Facts.

(** [strings.Contains key "|"] holds exactly when the separator character
    occurs in the key. *)
Lemma Contains_separator (key : string) :
  Contains key SeparatorForListKey = true <->
  List.In (Ascii.ascii_of_nat 124) (String.list_ascii_of_string key).
Proof.
  unfold SeparatorForListKey. induction key as [|c key IH].
  - simpl. split; [discriminate | tauto].
  - cbn [Contains String.list_ascii_of_string List.In String.prefix].
    destruct (Ascii.ascii_dec _ c) as [<-|Hne].
    + destruct key; simpl; split; auto.
    + rewrite orb_false_l, IH. split; [auto | intros [Heq|Hin]; [|done]].
      by destruct Hne.
Qed.

(** ** Frames: what an operation leaves alone *)

Section Frames.

Context (C : Collab).

Implicit Types (tx : Tx) (bucket key : string).

Lemma untouched_refl bucket tx : untouched C bucket tx tx.
Proof. split; [by left | done]. Qed.


Lemma untouched_frame bucket tx tx' :
  untouched C bucket tx tx' ->
  closed tx' = closed tx ∧ now tx' = now tx ∧
  pendingWrites tx' = pendingWrites tx ∧
  (∀ b', b' ≠ bucket -> lists tx' !! b' = lists tx !! b') ∧
  (is_Some (lists tx' !! bucket) ↔ is_Some (lists tx !! bucket)).
Proof.
  intros [[->|(l' & Hs & ->)] _]; [done|].
  repeat split; try done.
  - intros b' Hne. by apply setList_lookup_ne.
  - rewrite setList_lookup. by eauto.
Qed.

Lemma untouched_log bucket tx tx' :
  untouched C bucket tx tx' -> pendingWrites tx' = pendingWrites tx.
Proof. intros H. by destruct (untouched_frame _ _ _ H) as (_ & _ & ? & _). Qed.

Lemma call_spec {R} bucket (m : Z -> List -> R * List) tx (l : List) :
  lists tx !! bucket = Some l ->
  call bucket m tx = Some ((m (now tx) l).1, setList bucket (m (now tx) l).2 tx).
Proof. intros Hl. unfold call. rewrite Hl. by destruct (m (now tx) l). Qed.

Lemma setList_untouched bucket tx (l l' : List) :
  lists tx !! bucket = Some l -> (Pure C -> l' = l) ->
  untouched C bucket tx (setList bucket l' tx).
Proof.
  intros Hl Hp. split.
  - right. exists l'. by eauto.
  - intros HP. rewrite (Hp HP). by apply setList_same.
Qed.

Lemma CheckExpire_untouched bucket key tx (r : bool) tx' :
  CheckExpire C bucket key tx = Some (r, tx') -> untouched C bucket tx tx'.
Proof.
  destruct (lists tx !! bucket) as [l|] eqn:Hl.
  - rewrite (CheckExpire_registered _ _ _ _ l Hl). intros [= <- <-].
    apply (setList_untouched _ _ l); [done|]. intros HP. apply HP.
  - rewrite (CheckExpire_nil _ _ _ _ Hl).
    destruct (nil_IsExpire C key); intros [= <- <-]. apply untouched_refl.
Qed.

(** On a registered bucket the gate does not panic. *)
Lemma CheckExpire_total bucket key tx :
  is_Some (lists tx !! bucket) ->
  ∃ r tx', CheckExpire C bucket key tx = Some (r, tx') ∧
           is_Some (lists tx' !! bucket).
Proof.
  intros [l Hl]. rewrite (CheckExpire_registered _ _ _ _ l Hl).
  eexists _, _. split; [done|]. rewrite setList_lookup. by eauto.
Qed.

(** The closed form of a guarded query. *)
Lemma guardedQuery_spec {A} bucket key (dflt : A) m tx :
  guardedQuery C bucket key dflt m tx =
  if closed tx then Some ((dflt, Some ErrTxClosed), tx)
  else match lists tx !! bucket with
       | None => Some ((dflt, Some ErrBucket), tx)
       | Some l =>
           let g := l_IsExpire C (now tx) l key in
           if g.1 then Some ((dflt, Some ErrKeyNotFound), setList bucket g.2 tx)
           else Some ((m (now tx) g.2).1, setList bucket (m (now tx) g.2).2 tx)
       end.
Proof.
  unfold guardedQuery, bind, checkTxIsClosed, getList.
  destruct (closed tx); [done|]. cbn beta iota.
  destruct (lists tx !! bucket) as [l|] eqn:Hl; [|done].
  rewrite (CheckExpire_registered _ _ _ _ l Hl). cbn zeta.
  destruct (l_IsExpire C (now tx) l key) as [[] l1]; [done|]. cbn [fst snd].
  rewrite (call_spec _ _ _ l1) by apply setList_lookup.
  by rewrite setList_setList.
Qed.

Lemma guardedQuery_total {A} bucket key (dflt : A) m tx :
  ∃ r tx', guardedQuery C bucket key dflt m tx = Some (r, tx').
Proof.
  rewrite guardedQuery_spec.
  destruct (closed tx); [by eauto|].
  destruct (lists tx !! bucket); [|by eauto].
  cbn zeta. destruct (l_IsExpire C (now tx) l key).1; by eauto.
Qed.

Lemma guardedQuery_untouched {A} bucket key (dflt : A) m tx r tx' :
  (Pure C -> ∀ t l, (m t l).2 = l) ->
  guardedQuery C bucket key dflt m tx = Some (r, tx') ->
  untouched C bucket tx tx'.
Proof.
  intros Hm. rewrite guardedQuery_spec.
  destruct (closed tx); [intros [= <- <-]; apply untouched_refl|].
  destruct (lists tx !! bucket) as [l|] eqn:Hl;
    [|intros [= <- <-]; apply untouched_refl].
  cbn zeta. destruct (l_IsExpire C (now tx) l key).1; intros [= <- <-].
  - apply (setList_untouched _ _ l); [done|]. intros HP. apply HP.
  - apply (setList_untouched _ _ l); [done|]. intros HP.
    rewrite (Hm HP). apply HP.
Qed.

(** A guarded query that reports no error ran its query on the structure
    the gate left, and that structure stays registered. *)
Lemma guardedQuery_ok {A} bucket key (dflt : A) m tx (a : A) tx' :
  guardedQuery C bucket key dflt m tx = Some ((a, None), tx') ->
  closed tx = false ∧
  ∃ l, lists tx !! bucket = Some l ∧
       (l_IsExpire C (now tx) l key).1 = false ∧
       (m (now tx) (l_IsExpire C (now tx) l key).2).1 = (a, None) ∧
       tx' = setList bucket (m (now tx) (l_IsExpire C (now tx) l key).2).2 tx.
Proof.
  rewrite guardedQuery_spec.
  destruct (closed tx); [done|].
  destruct (lists tx !! bucket) as [l|] eqn:Hl; [|done].
  cbn zeta. destruct (l_IsExpire C (now tx) l key).1 eqn:Hg; [done|].
  intros [= Hr <-]. split; [done|]. exists l. by rewrite Hg.
Qed.

Lemma RPeek_guarded bucket key :
  RPeek C bucket key = guardedQuery C bucket key "" (fun t l => l_RPeek C t l key).
Proof. reflexivity. Qed.

Lemma LPeek_guarded bucket key :
  LPeek C bucket key = guardedQuery C bucket key "" (fun t l => l_LPeek C t l key).
Proof. reflexivity. Qed.

Lemma LSize_guarded bucket key :
  LSize C bucket key = guardedQuery C bucket key 0 (fun t l => l_Size C t l key).
Proof. reflexivity. Qed.

Lemma LRange_guarded bucket key start end_ :
  LRange C bucket key start end_ =
  guardedQuery C bucket key [] (fun t l => l_LRange C t l key start end_).
Proof. reflexivity. Qed.

End Frames.

(** ** The enumeration of LKeys *)

Section Enumeration.

Context (C : Collab).

Implicit Types (tx : Tx) (bucket key pattern : string) (f : string -> bool).

Lemma readList_spec {R} bucket (g : List -> R) tx (l : List) :
  lists tx !! bucket = Some l -> readList bucket g tx = Some (g l, tx).
Proof. intros Hl. unfold readList. by rewrite Hl. Qed.


(** With pure queries the loop is the enumeration described by
    [enumerated], on the unchanged state. *)
Lemma LKeys_range_enumerated bucket pattern f (keys : list string) tx (l : List) :
  Pure C -> lists tx !! bucket = Some l ->
  ∃ r, LKeys_range C bucket pattern f keys tx = Some (r, tx) ∧
       enumerated C (now tx) l pattern f keys r.
Proof.
  intros HP Hl. induction keys as [|key rest IH].
  - exists ([], None). split; [done|]. left. by split.
  - destruct IH as (r' & Hrest & Henum).
    cbn [LKeys_range]. unfold bind at 1. rewrite (readList_spec _ _ _ l Hl).
    assert (Hskip : visited C (now tx) l key = false ->
              enumerated C (now tx) l pattern f (key :: rest) r').
    { intros Hv.
      assert (Hh : handed C (now tx) l pattern key = false)
        by (unfold handed; by rewrite Hv).
      assert (Hs : stops C (now tx) l pattern f key = false)
        by (unfold stops; by rewrite Hv).
      destruct Henum as [[Hall ->]|(ks1 & k & ks2 & -> & Hall & Hk & ->)].
      - left. split; [by constructor|].
        rewrite filter_cons_False; [done|]. by rewrite Hh.
      - right. exists (key :: ks1), k, ks2. repeat split; try done.
        + by constructor.
        + cbn [app]. rewrite filter_cons_False; [done|]. by rewrite Hh. }
    destruct (isSome (Items l !! key)) eqn:Hpresent; cbn [negb].
    2:{ exists r'. split; [done|]. apply Hskip. unfold visited. by rewrite Hpresent. }
    unfold bind at 1. rewrite (CheckExpire_registered _ _ _ _ l Hl).
    rewrite (pure_IsExpire C HP), (setList_same _ _ _ Hl).
    destruct (l_IsExpire C (now tx) l key).1 eqn:Hexp.
    { exists r'. split; [done|]. apply Hskip. unfold visited.
      by rewrite Hpresent, Hexp. }
    assert (Hv : visited C (now tx) l key = true)
      by (unfold visited; by rewrite Hpresent, Hexp).
    unfold MatchForRange.
    destruct (path_Match C pattern key) as [m [e|]] eqn:Hm.
    + (* the match reports an error *)
      exists ([], Some e). split; [by destruct m|].
      right. exists [], key, rest. repeat split; try done.
      * unfold stops. by rewrite Hv, Hm.
      * cbn [app]. rewrite filter_cons_False, filter_nil; [by rewrite Hm|].
        unfold handed. rewrite Hm, bool_decide_eq_false_2 by done.
        by rewrite andb_false_r.
    + destruct m.
      * (* the pattern matches: the callback is invoked *)
        assert (Hh : handed C (now tx) l pattern key = true).
        { unfold handed. by rewrite Hv, Hm, bool_decide_eq_true_2. }
        destruct (f key) eqn:Hf; cbn [negb orb isSome].
        -- unfold bind. rewrite Hrest. exists ((key :: r'.1), r'.2).
           split; [done|].
           assert (Hs : stops C (now tx) l pattern f key = false).
           { unfold stops. rewrite Hv, Hm, Hf. done. }
           destruct Henum as [[Hall ->]|(ks1 & k & ks2 & -> & Hall & Hk & ->)].
           ++ left. split; [by constructor|].
              rewrite filter_cons_True; done.
           ++ right. exists (key :: ks1), k, ks2. repeat split; try done.
              ** by constructor.
              ** cbn [app fst snd]. rewrite filter_cons_True; done.
        -- exists ([key], None). split; [done|].
           right. exists [], key, rest. repeat split; try done.
           ++ unfold stops. by rewrite Hv, Hm, Hf.
           ++ cbn [app]. rewrite filter_cons_True, filter_nil; [by rewrite Hm|done].
      * (* the pattern does not match *)
        cbn [orb isSome]. unfold bind. rewrite Hrest.
        exists (r'.1, r'.2). split; [done|].
        assert (Hh : handed C (now tx) l pattern key = false).
        { unfold handed. rewrite Hm, bool_decide_eq_false_2 by done.
          by rewrite andb_false_r. }
        assert (Hs : stops C (now tx) l pattern f key = false).
        { unfold stops. rewrite Hm. cbn. by rewrite andb_false_r. }
        destruct Henum as [[Hall ->]|(ks1 & k & ks2 & -> & Hall & Hk & ->)].
        -- left. split; [by constructor|].
           rewrite filter_cons_False; [done|]. by rewrite Hh.
        -- right. exists (key :: ks1), k, ks2. repeat split; try done.
           ++ by constructor.
           ++ cbn [app fst snd]. rewrite filter_cons_False; [done|]. by rewrite Hh.
Qed.

(** A key the enumeration handed to the callback is one of the keys, is
    among the items, is not reported expired and matches the pattern. *)
Lemma enumerated_handed t (l : List) pattern f (keys : list string)
    (r : list string * option error) key :
  enumerated C t l pattern f keys r -> key ∈ fst r ->
  key ∈ keys ∧ is_Some (Items l !! key) ∧
  (l_IsExpire C t l key).1 = false ∧ path_Match C pattern key = (true, None).
Proof.
  assert (Hh : ∀ ks : list string,
            key ∈ filter (fun k => handed C t l pattern k = true) ks ->
            key ∈ ks ∧ is_Some (Items l !! key) ∧
            (l_IsExpire C t l key).1 = false ∧
            path_Match C pattern key = (true, None)).
  { intros ks [Hhanded Hin]%list_elem_of_filter. split; [done|].
    unfold handed, visited in Hhanded.
    apply andb_prop in Hhanded as [[Hp He]%andb_prop Hm].
    apply bool_decide_eq_true in Hm. apply negb_true_iff in He.
    repeat split; try done. by destruct (Items l !! key). }
  intros [[_ ->]|(ks1 & k & ks2 & -> & _ & _ & ->)] Hin; cbn [fst] in Hin.
  - by apply Hh.
  - destruct (Hh _ Hin) as (Hin' & ?). split; [|done].
    rewrite elem_of_app in Hin'. rewrite elem_of_app, elem_of_cons.
    destruct Hin' as [?|Hk%list_elem_of_singleton]; by eauto.
Qed.

End Enumeration.

(** ** Failing calls *)

Section Failures.

Context (C : Collab).

Implicit Types (tx : Tx) (bucket key : string).





Lemma LSize_untouched bucket key tx r tx' :
  LSize C bucket key tx = Some (r, tx') -> untouched C bucket tx tx'.
Proof.
  rewrite LSize_guarded. apply guardedQuery_untouched. intros HP t l. apply HP.
Qed.


(** The closed form of ExpireList on an open transaction and a registered
    bucket: the tables are written, then the record goes to the log. *)
Lemma ExpireList_run bucket key (ttl : Z) tx (l : List) :
  closed tx = false ->
  lists tx !! bucket = Some l ->
  ExpireList C bucket key ttl tx =
  match put_err C (setList bucket (withTTL l key ttl (now tx)) tx)
                (entry bucket key DataExpireListFlag (now tx) (Int64ToStr ttl)) with
  | None =>
      Some (None,
            addLog (setList bucket (withTTL l key ttl (now tx)) tx)
                   [entry bucket key DataExpireListFlag (now tx) (Int64ToStr ttl)])
  | Some err => Some (Some err, setList bucket (withTTL l key ttl (now tx)) tx)
  end.
Proof.
  intros Hopen Hl.
  unfold ExpireList, bind at 1 2 3 4, checkTxIsClosed, getList.
  rewrite Hopen. cbn beta iota. rewrite Hl.
  rewrite (call_spec _ _ _ l Hl). cbn [fst snd].
  rewrite (call_spec _ _ _ (mkList (Items l) (<[key:=ttl]> (TTL l)) (TimeStamp l)))
    by apply setList_lookup.
  cbn [fst snd]. rewrite setList_setList.
  change (now (setList _ _ tx)) with (now tx).
  change (mkList _ _ _) with (withTTL l key ttl (now tx)).
  unfold bind. rewrite push_one.
  change (now (setList _ _ tx)) with (now tx).
  by destruct (put_err C _ _).
Qed.

End Failures.

(** ** Quiet steps: the state changes only by query calls of the structure *)

Section Quiet.

Context (C : Collab).

Implicit Types (tx : Tx) (bucket key : string).

Lemma queried_pure (t : Z) (l l' : List) :
  Pure C -> queried C t l l' -> l' = l.
Proof.
  intros HP Hq. induction Hq as [|x y z Hstep _ IH]; [done|].
  rewrite IH. destruct Hstep; apply HP.
Qed.

Lemma quiet_refl bucket tx : quiet C bucket tx tx.
Proof. by left. Qed.

Lemma quiet_step bucket tx (l l' : List) :
  lists tx !! bucket = Some l -> queried C (now tx) l l' ->
  quiet C bucket tx (setList bucket l' tx).
Proof. intros Hl Hq. right. by exists l, l'. Qed.

Lemma quiet_trans bucket tx1 tx2 tx3 :
  quiet C bucket tx1 tx2 -> quiet C bucket tx2 tx3 -> quiet C bucket tx1 tx3.
Proof.
  intros [->|(l1 & l2 & Hl1 & Hq12 & ->)]; [done|].
  intros [->|(l2' & l3 & Hl2 & Hq23 & ->)]; [by apply (quiet_step _ _ l1)|].
  rewrite setList_lookup in Hl2. injection Hl2 as <-.
  rewrite setList_setList. apply (quiet_step _ _ l1); [done|].
  by eapply rtc_trans.
Qed.

Lemma quiet_untouched bucket tx tx' :
  quiet C bucket tx tx' -> untouched C bucket tx tx'.
Proof.
  intros [->|(l & l' & Hl & Hq & ->)]; [apply untouched_refl|].
  apply (setList_untouched _ _ _ l); [done|].
  intros HP. by eapply queried_pure.
Qed.

Lemma quiet_frame bucket tx tx' :
  quiet C bucket tx tx' ->
  closed tx' = closed tx ∧ now tx' = now tx ∧
  pendingWrites tx' = pendingWrites tx ∧
  (∀ b', b' ≠ bucket -> lists tx' !! b' = lists tx !! b') ∧
  (is_Some (lists tx' !! bucket) ↔ is_Some (lists tx !! bucket)).
Proof. intros Hq. by apply (untouched_frame C), quiet_untouched. Qed.

Lemma CheckExpire_quiet bucket key tx (r : bool) tx' :
  CheckExpire C bucket key tx = Some (r, tx') -> quiet C bucket tx tx'.
Proof.
  destruct (lists tx !! bucket) as [l|] eqn:Hl.
  - rewrite (CheckExpire_registered _ _ _ _ l Hl). intros [= <- <-].
    apply (quiet_step _ _ l); [done|]. apply rtc_once. constructor.
  - rewrite (CheckExpire_nil _ _ _ _ Hl).
    destruct (nil_IsExpire C key); intros [= <- <-]. apply quiet_refl.
Qed.

Lemma guardedQuery_quiet {A} bucket key (dflt : A) m tx r tx' :
  (∀ t l, query_step C t l (m t l).2) ->
  guardedQuery C bucket key dflt m tx = Some (r, tx') ->
  quiet C bucket tx tx'.
Proof.
  intros Hm. rewrite guardedQuery_spec.
  destruct (closed tx); [intros [= <- <-]; apply quiet_refl|].
  destruct (lists tx !! bucket) as [l|] eqn:Hl;
    [|intros [= <- <-]; apply quiet_refl].
  cbn zeta. destruct (l_IsExpire C (now tx) l key).1; intros [= <- <-];
    apply (quiet_step _ _ l); try done.
  - apply rtc_once. constructor.
  - eapply rtc_l; [apply step_IsExpire|]. apply rtc_once. apply Hm.
Qed.

Lemma RPeek_quiet bucket key tx r tx' :
  RPeek C bucket key tx = Some (r, tx') -> quiet C bucket tx tx'.
Proof. rewrite RPeek_guarded. apply guardedQuery_quiet. intros; constructor. Qed.

Lemma LPeek_quiet bucket key tx r tx' :
  LPeek C bucket key tx = Some (r, tx') -> quiet C bucket tx tx'.
Proof. rewrite LPeek_guarded. apply guardedQuery_quiet. intros; constructor. Qed.

Lemma LSize_quiet bucket key tx r tx' :
  LSize C bucket key tx = Some (r, tx') -> quiet C bucket tx tx'.
Proof. rewrite LSize_guarded. apply guardedQuery_quiet. intros; constructor. Qed.

Lemma LRange_quiet bucket key start end_ tx r tx' :
  LRange C bucket key start end_ tx = Some (r, tx') -> quiet C bucket tx tx'.
Proof. rewrite LRange_guarded. apply guardedQuery_quiet. intros; constructor. Qed.

Lemma GetListTTL_quiet bucket key tx r tx' :
  GetListTTL C bucket key tx = Some (r, tx') -> quiet C bucket tx tx'.
Proof.
  unfold GetListTTL, bind, checkTxIsClosed, getList.
  destruct (closed tx); [intros [= <- <-]; apply quiet_refl|].
  cbn beta iota.
  destruct (lists tx !! bucket) as [l|] eqn:Hl;
    [|intros [= <- <-]; apply quiet_refl].
  rewrite (call_spec _ _ _ l Hl). intros [= <- <-].
  apply (quiet_step _ _ l); [done|]. apply rtc_once. constructor.
Qed.

Lemma after_gate_queried (t : Z) (l : List) key :
  queried C t l (after_gate C t l key).
Proof.
  unfold after_gate. destruct (isSome (Items l !! key)); [|done].
  apply rtc_once. constructor.
Qed.

Lemma foldl_after_gate_queried (t : Z) (keys : list string) (l : List) :
  queried C t l (foldl (after_gate C t) l keys).
Proof.
  revert l. induction keys as [|key rest IH]; intros l; [done|].
  cbn [foldl]. eapply rtc_trans; [apply after_gate_queried | apply IH].
Qed.

End Quiet.

(** ** The walk of LKeys, whatever the gate does to the structure *)

Section Walk.

Context (C : Collab).

Implicit Types (tx : Tx) (bucket key pattern : string) (f : string -> bool)
  (l : List) (keys : list string).

Lemma visits_app (t : Z) keys (keys' : list string) l :
  visits C t (keys ++ keys') l =
  visits C t keys l ++ visits C t keys' (foldl (after_gate C t) l keys).
Proof.
  revert l. induction keys as [|key rest IH]; intros l; [done|].
  cbn [app visits foldl]. by rewrite IH.
Qed.

Lemma visits_key (t : Z) keys l key (lk : List) :
  (key, lk) ∈ visits C t keys l -> key ∈ keys.
Proof.
  revert l. induction keys as [|k rest IH]; intros l; cbn [visits].
  - by intros ?%elem_of_nil.
  - intros [[= -> _]|Hin]%elem_of_cons; [by left|]. right. by eapply IH.
Qed.

(** In a walk that comes to each key once, a key is judged on one
    structure. *)
Lemma visits_unique (t : Z) keys l key (l1 l2 : List) :
  NoDup keys ->
  (key, l1) ∈ visits C t keys l -> (key, l2) ∈ visits C t keys l -> l1 = l2.
Proof.
  revert l. induction keys as [|k rest IH]; intros l Hnd; cbn [visits].
  - by intros ?%elem_of_nil.
  - apply NoDup_cons in Hnd as [Hk Hnd].
    intros H1%elem_of_cons H2%elem_of_cons.
    destruct H1 as [H1|H1], H2 as [H2|H2].
    + congruence.
    + injection H1 as -> ->. destruct Hk. by eapply visits_key.
    + injection H2 as -> ->. destruct Hk. by eapply visits_key.
    + by eapply IH.
Qed.

(** The loop passes on from a key it does not stop at. *)
Lemma walked_cons_pass (t : Z) pattern f key keys l
    (r : list string * option error) (l' : List) :
  stops C t l pattern f key = false ->
  walked C t pattern f keys (after_gate C t l key) r l' ->
  walked C t pattern f (key :: keys) l
    (if handed C t l pattern key then key :: r.1 else r.1, r.2) l'.
Proof.
  intros Hpass (seen & err & Hcase & -> & ->).
  exists (key :: seen), err. split; [|split; [|done]].
  - destruct Hcase as [(-> & -> & Hall)|(ks1 & k & ks2 & -> & -> & Hall & Hk & ->)].
    + left. repeat split; try done. cbn [visits]. by constructor.
    + right. exists (key :: ks1), k, ks2. repeat split; try done.
      cbn [visits]. by constructor.
  - cbn [visits fst snd]. destruct (handed C t l pattern key) eqn:Hh.
    + by rewrite filter_cons_True.
    + rewrite filter_cons_False; [done|]. cbn [fst snd]. by rewrite Hh.
Qed.

(** The loop ends at a key it stops at. *)
Lemma walked_cons_stop (t : Z) pattern f key keys l :
  stops C t l pattern f key = true ->
  walked C t pattern f (key :: keys) l
    (if handed C t l pattern key then [key] else [],
     (path_Match C pattern key).2) (after_gate C t l key).
Proof.
  intros Hstop. exists [key], (path_Match C pattern key).2.
  split; [|split; [|done]].
  - right. exists [], key, keys. repeat split; first [done | constructor].
  - cbn [visits]. destruct (handed C t l pattern key) eqn:Hh.
    + by rewrite filter_cons_True.
    + rewrite filter_cons_False; [done|]. cbn [fst snd]. by rewrite Hh.
Qed.

(** The loop of LKeys on a registered bucket: it returns, and what it
    returns and leaves is the walk over the keys. *)
Lemma LKeys_range_walked bucket pattern f keys tx l :
  lists tx !! bucket = Some l ->
  ∃ r l', LKeys_range C bucket pattern f keys tx = Some (r, setList bucket l' tx) ∧
          walked C (now tx) pattern f keys l r l'.
Proof.
  revert tx l. induction keys as [|key rest IH]; intros tx l Hl.
  - exists ([], None), l. rewrite (setList_same _ _ _ Hl). split; [done|].
    exists [], None. split; [|done]. left. repeat split; first [done | constructor].
  - cbn [LKeys_range]. unfold bind at 1. rewrite (readList_spec _ _ _ l Hl).
    destruct (isSome (Items l !! key)) eqn:Hpresent; cbn [negb].
    2:{ (* the key is no longer among the items *)
      destruct (IH tx l Hl) as (r & l' & Hrun & Hwalk).
      exists r, l'. split; [done|].
      assert (Hv : visited C (now tx) l key = false)
        by (unfold visited; by rewrite Hpresent).
      replace r with
        (if handed C (now tx) l pattern key then key :: r.1 else r.1, r.2)
        by (unfold handed; rewrite Hv; by destruct r).
      apply walked_cons_pass; [unfold stops; by rewrite Hv|].
      unfold after_gate. by rewrite Hpresent. }
    unfold bind at 1. rewrite (CheckExpire_registered _ _ _ _ l Hl).
    set (g := l_IsExpire C (now tx) l key).
    assert (Hafter : after_gate C (now tx) l key = g.2)
      by (unfold after_gate; by rewrite Hpresent).
    assert (Hl1 : lists (setList bucket g.2 tx) !! bucket = Some g.2)
      by apply setList_lookup.
    destruct (IH (setList bucket g.2 tx) g.2 Hl1) as (r & l' & Hrun & Hwalk).
    rewrite setList_setList in Hrun. change (now (setList _ _ tx)) with (now tx) in Hwalk.
    rewrite <- Hafter in Hwalk.
    destruct g.1 eqn:Hexp.
    { (* the gate reports the key expired *)
      exists r, l'. split; [done|].
      assert (Hv : visited C (now tx) l key = false)
        by (unfold visited; fold g; by rewrite Hpresent, Hexp).
      replace r with
        (if handed C (now tx) l pattern key then key :: r.1 else r.1, r.2)
        by (unfold handed; rewrite Hv; by destruct r).
      apply walked_cons_pass; [unfold stops; by rewrite Hv | done]. }
    assert (Hv : visited C (now tx) l key = true)
      by (unfold visited; fold g; by rewrite Hpresent, Hexp).
    unfold MatchForRange.
    destruct (path_Match C pattern key) as [m [e|]] eqn:Hm.
    + (* the match reports an error *)
      exists ([], Some e), g.2. split; [by destruct m|].
      assert (Hh : handed C (now tx) l pattern key = false).
      { unfold handed. rewrite Hm, bool_decide_eq_false_2 by done.
        by rewrite andb_false_r. }
      pose proof (walked_cons_stop (now tx) pattern f key rest l) as Hstop.
      rewrite Hh, Hm, Hafter in Hstop. apply Hstop.
      unfold stops. by rewrite Hv, Hm.
    + destruct m.
      * (* the pattern matches: the callback is invoked *)
        assert (Hh : handed C (now tx) l pattern key = true).
        { unfold handed. by rewrite Hv, Hm, bool_decide_eq_true_2. }
        destruct (f key) eqn:Hf; cbn [negb orb isSome].
        -- unfold bind. rewrite Hrun. exists (key :: r.1, r.2), l'.
           split; [done|].
           pose proof (walked_cons_pass (now tx) pattern f key rest l r l') as Hpass.
           rewrite Hh in Hpass. apply Hpass; [|done].
           unfold stops. by rewrite Hv, Hm, Hf.
        -- exists ([key], None), g.2. split; [done|].
           pose proof (walked_cons_stop (now tx) pattern f key rest l) as Hstop.
           rewrite Hh, Hm, Hafter in Hstop. apply Hstop.
           unfold stops. by rewrite Hv, Hm, Hf.
      * (* the pattern does not match *)
        cbn [orb isSome]. unfold bind. rewrite Hrun.
        exists (r.1, r.2), l'. split; [done|].
        assert (Hh : handed C (now tx) l pattern key = false).
        { unfold handed. rewrite Hm, bool_decide_eq_false_2 by done.
          by rewrite andb_false_r. }
        pose proof (walked_cons_pass (now tx) pattern f key rest l r l') as Hpass.
        rewrite Hh in Hpass. apply Hpass; [|done].
        unfold stops. rewrite Hm. cbn. by rewrite andb_false_r.
Qed.

(** The keys the loop dealt with are among the keys of the walk, each
    judged on the same structure. *)
Lemma walked_seen (t : Z) pattern f keys l (r : list string * option error)
    (l' : List) key :
  walked C t pattern f keys l r l' -> key ∈ r.1 ->
  ∃ lk, (key, lk) ∈ visits C t keys l ∧ handed C t lk pattern key = true.
Proof.
  intros (seen & err & Hcase & -> & _) Hin. cbn [fst] in Hin.
  apply list_elem_of_fmap in Hin as ([k lk] & -> & Hin).
  apply list_elem_of_filter in Hin as [Hh Hin]. cbn [fst snd] in *.
  exists lk. split; [|done].
  destruct Hcase as [(-> & _)|(ks1 & k' & ks2 & -> & -> & _)]; [done|].
  rewrite visits_app in Hin. rewrite visits_app. cbn [visits] in *.
  rewrite elem_of_app in Hin. rewrite elem_of_app, elem_of_cons.
  destruct Hin as [?|Hin]; [by left|]. right. left.
  by apply list_elem_of_singleton in Hin.
Qed.

Lemma walked_queried (t : Z) pattern f keys l (r : list string * option error)
    (l' : List) :
  walked C t pattern f keys l r l' -> queried C t l l'.
Proof. intros (seen & err & _ & _ & ->). apply foldl_after_gate_queried. Qed.

End Walk.

Lemma fmapM_inv {A B} (g : A -> B) (m : M A) (tx : Tx) (r : B) (tx' : Tx) :
  fmapM g m tx = Some (r, tx') -> ∃ a, m tx = Some (a, tx') ∧ r = g a.
Proof.
  unfold fmapM, bind, ret. destruct (m tx) as [[a tx1]|]; [|done].
  intros [= <- <-]. by exists a.
Qed.

(** ** Calls that return an error *)

Section Failing.

Context (C : Collab).

Implicit Types (tx : Tx) (bucket key : string).

Lemma LKeys_quiet bucket pattern f tx r tx' :
  LKeys C bucket pattern f tx = Some (r, tx') -> quiet C bucket tx tx'.
Proof.
  unfold LKeys, bind, checkTxIsClosed, getList.
  destruct (closed tx); [intros [= <- <-]; apply quiet_refl|].
  cbn beta iota.
  destruct (lists tx !! bucket) as [l|] eqn:Hl;
    [|intros [= <- <-]; apply quiet_refl].
  destruct (LKeys_range_walked C bucket pattern f (range_keys C (Items l)) tx l Hl)
    as (r0 & l' & Hloop & Hwalk).
  rewrite Hloop. intros [= <- <-].
  apply (quiet_step _ _ _ l); [done|]. by eapply walked_queried.
Qed.

(** A peek followed by one push (RPop, LPop): an error leaves the state
    quiet. *)
Lemma pop_failing bucket key flag (peek : M (string * option error)) tx r tx' e :
  (∀ r1 tx1, peek tx = Some (r1, tx1) -> quiet C bucket tx tx1) ->
  (do r1 <- peek;
   match r1.2 with
   | Some _ => ret r1
   | None => do err <- push C bucket key flag [r1.1]; ret (r1.1, err)
   end) tx = Some (r, tx') ->
  r.2 = Some e -> quiet C bucket tx tx'.
Proof.
  intros Hpeek. unfold bind at 1.
  destruct (peek tx) as [[r1 tx1]|] eqn:Hp; [|done].
  specialize (Hpeek _ _ eq_refl).
  destruct r1.2 as [e1|]; [by intros [= <- <-]|].
  unfold bind. rewrite push_one.
  destruct (put_err C tx1 _); intros [= <- <-]; [done|]. by intros [=].
Qed.

(** RPush and LPush: an error leaves the state quiet, or the log refused a
    value after taking the values before it. *)
Lemma push_failing (c : Call) bucket key flag (values : list string) tx tx' e :
  bucket_of c = bucket -> pushCall c = Some (flag, key, values) ->
  (do err <- checkTxIsClosed;
   match err with
   | Some e0 => ret (Some e0)
   | None =>
       do expired <- CheckExpire C bucket key;
       if expired then ret (Some ErrKeyNotFound)
       else if Contains key SeparatorForListKey then ret (Some ErrSeparatorForListKey)
       else push C bucket key flag values
   end) tx = Some (Some e, tx') ->
  failing_effect C c tx tx' e.
Proof.
  intros <- Hc. unfold bind, checkTxIsClosed.
  destruct (closed tx); [intros [= <- <-]; left; apply quiet_refl|].
  destruct (CheckExpire C (bucket_of c) key tx) as [[expired tx1]|] eqn:Hgate;
    [|done].
  pose proof (CheckExpire_quiet _ _ _ _ _ _ Hgate) as Hq.
  destruct (quiet_frame _ _ _ _ Hq) as (_ & Hnow & _).
  destruct expired; [intros [= <- <-]; by left|].
  destruct (Contains key SeparatorForListKey); [intros [= <- <-]; by left|].
  destruct (push_spec C (bucket_of c) key flag values tx1) as (n & r & Hpush & Hcase).
  rewrite Hnow in Hpush, Hcase.
  rewrite Hpush. intros [= -> <-].
  destruct Hcase as [[[=] _]|(v & e' & Hv & [= <-] & Hrefuse)].
  destruct n as [|n].
  - left. by rewrite take_0, fmap_nil, addLog_nil.
  - right; left. exists flag, key, values, tx1, (S n), v.
    split; [done|]. split; [done|]. split; [done|]. split; [lia|]. by split.
Qed.

(** LRem: an error leaves the state quiet, unless it is the error of
    [LRemNum], which runs once the record of the call is pending. *)
Lemma LRem_failing bucket key (count : Z) (value : string) tx r tx' e :
  LRem C bucket key count value tx = Some (r, tx') ->
  r.2 = Some e ->
  failing_effect C (CallLRem bucket key count value) tx tx' e.
Proof.
  unfold LRem, bind at 1.
  destruct (LSize C bucket key tx) as [[[size err] tx1]|] eqn:Hsize; [|done].
  pose proof (LSize_quiet _ _ _ _ _ _ Hsize) as Hq.
  destruct (quiet_frame _ _ _ _ Hq) as (_ & Hnow & _ & _ & _).
  destruct err as [e1|]; cbn [fst snd]; [intros [= <- <-]; by left|].
  destruct (bool_decide (count > size) || bool_decide (count < - size));
    [intros [= <- <-]; by left|].
  unfold bind at 1. rewrite push_one.
  destruct (put_err C tx1 _); [intros [= <- <-]; by left|].
  unfold bind, getList. cbn [lists addLog].
  destruct (lists tx1 !! bucket) as [l1|] eqn:Hl1.
  2:{ (* the structure was registered when LSize answered *)
      rewrite LSize_guarded in Hsize.
      destruct (guardedQuery_ok _ _ _ _ _ _ _ _ Hsize) as (_ & l & _ & _ & _ & ->).
      by rewrite setList_lookup in Hl1. }
  rewrite (call_spec _ _ _ l1) by done. cbn [now addLog]. rewrite Hnow.
  intros [= <- <-] Herr. right; right; right.
  exists key, count, value, tx1, l1. by repeat split.
Qed.

(** The head LSet and LTrim share: the checks, the gate and the look-up of
    the key among the items. *)
Lemma keyed_failing bucket key (body : M (option error)) tx tx' e :
  (∀ tx1, is_Some (lists tx1 !! bucket) ->
          body tx1 = Some (Some e, tx') -> quiet C bucket tx1 tx') ->
  (do err <- checkTxIsClosed;
   match err with
   | Some e0 => ret (Some e0)
   | None =>
       do l <- getList bucket;
       match l with
       | None => ret (Some ErrBucket)
       | Some _ =>
           do expired <- CheckExpire C bucket key;
           if expired then ret (Some ErrKeyNotFound)
           else
             do ok <- readList bucket (fun l => isSome (Items l !! key));
             if negb ok then ret (Some ErrKeyNotFound) else body
       end
   end) tx = Some (Some e, tx') ->
  quiet C bucket tx tx'.
Proof.
  intros Hbody. unfold bind, checkTxIsClosed, getList.
  destruct (closed tx); [intros [= <- <-]; apply quiet_refl|].
  cbn beta iota.
  destruct (lists tx !! bucket) as [l|] eqn:Hl;
    [|intros [= <- <-]; apply quiet_refl].
  destruct (CheckExpire C bucket key tx) as [[expired tx1]|] eqn:Hgate; [|done].
  pose proof (CheckExpire_quiet _ _ _ _ _ _ Hgate) as Hq.
  destruct (quiet_frame _ _ _ _ Hq) as (_ & _ & _ & _ & Hreg).
  destruct expired; [by intros [= <- <-]|].
  destruct (proj2 Hreg) as [l1 Hl1]; [by eauto|].
  rewrite (readList_spec _ _ _ l1 Hl1).
  destruct (negb (isSome (Items l1 !! key))); [by intros [= <- <-]|].
  intros Hrun. eapply quiet_trans; [exact Hq|].
  apply Hbody; by eauto.
Qed.

Lemma LSet_failing bucket key (index : Z) (value : string) tx tx' e :
  LSet C bucket key index value tx = Some (Some e, tx') ->
  quiet C bucket tx tx'.
Proof.
  apply keyed_failing. intros tx1 _. unfold bind at 1.
  destruct (LSize C bucket key tx1) as [[r tx2]|] eqn:Hsize; [|done].
  pose proof (LSize_quiet _ _ _ _ _ _ Hsize) as Hq.
  destruct (bool_decide (index < 0) || bool_decide (index >= r.1));
    [by intros [= <- <-]|].
  rewrite push_one. destruct (put_err C tx2 _); by intros [= <- <-].
Qed.

Lemma LTrim_failing bucket key (start end_ : Z) tx tx' e :
  LTrim C bucket key start end_ tx = Some (Some e, tx') ->
  quiet C bucket tx tx'.
Proof.
  apply keyed_failing. intros tx1 _. unfold bind at 1.
  destruct (LRange C bucket key start end_ tx1) as [[r tx2]|] eqn:Hrange; [|done].
  pose proof (LRange_quiet _ _ _ _ _ _ _ _ Hrange) as Hq.
  destruct r.2; [by intros [= <- <-]|].
  rewrite push_one. destruct (put_err C tx2 _); by intros [= <- <-].
Qed.

Lemma LRemByIndex_failing bucket key (indexes : list Z) tx r tx' e :
  LRemByIndex C bucket key indexes tx = Some (r, tx') ->
  r.2 = Some e -> quiet C bucket tx tx'.
Proof.
  unfold LRemByIndex, bind at 1 2 3, checkTxIsClosed, getList.
  destruct (closed tx); [intros [= <- <-]; intros; apply quiet_refl|].
  cbn beta iota.
  destruct (lists tx !! bucket) as [l|] eqn:Hl;
    [|intros [= <- <-]; intros; apply quiet_refl].
  destruct (CheckExpire C bucket key tx) as [[expired tx1]|] eqn:Hgate; [|done].
  pose proof (CheckExpire_quiet _ _ _ _ _ _ Hgate) as Hq.
  destruct (quiet_frame _ _ _ _ Hq) as (_ & _ & _ & _ & Hreg).
  destruct expired; [by intros [= <- <-]|].
  destruct (proj2 Hreg) as [l1 Hl1]; [by eauto|].
  unfold bind at 1. rewrite (call_spec _ _ _ l1 Hl1).
  set (pre := l_LRemByIndexPreCheck C (now tx1) l1 key (sort_Ints indexes)).
  assert (Hq2 : quiet C bucket tx (setList bucket pre.2 tx1)).
  { eapply quiet_trans; [exact Hq|].
    apply (quiet_step _ _ _ l1); [done|]. apply rtc_once. constructor. }
  cbn [fst snd].
  destruct (bool_decide (pre.1.1 = 0) || isSome pre.1.2); [by intros [= <- <-]|].
  destruct (MarshalInts C (sort_Ints indexes)).2; [by intros [= <- <-]|].
  unfold bind. rewrite push_one.
  destruct (put_err C _ _); intros [= <- <-]; [done|]. by intros [=].
Qed.

Lemma ExpireList_failing bucket key (ttl : Z) tx tx' e :
  ExpireList C bucket key ttl tx = Some (Some e, tx') ->
  failing_effect C (CallExpireList bucket key ttl) tx tx' e.
Proof.
  destruct (closed tx) eqn:Hopen.
  { unfold ExpireList, bind, checkTxIsClosed. rewrite Hopen.
    intros [= <- <-]. left. apply quiet_refl. }
  destruct (lists tx !! bucket) as [l|] eqn:Hl.
  2:{ unfold ExpireList, bind, checkTxIsClosed, getList. rewrite Hopen, Hl.
      intros [= <- <-]. left. apply quiet_refl. }
  rewrite (ExpireList_run _ _ _ _ _ l Hopen Hl).
  destruct (put_err C _ _) as [err|] eqn:Hput; [|done].
  intros [= <- <-]. right; right; left. exists key, ttl, l. by repeat split.
Qed.

(** Every call that returns an error. *)
Lemma run_failing (c : Call) tx (r : Reply) tx' (e : error) :
  run C c tx = Some (r, tx') -> reply_err r = Some e ->
  failing_effect C c tx tx' e.
Proof.
  intros Hrun Herr.
  destruct c; cbn [run] in Hrun;
    apply fmapM_inv in Hrun as (a & Hop & ->); cbn [reply_err bucket_of] in *.
  - left. eapply (pop_failing _ _ _ (RPeek C bucket key)); [|exact Hop|exact Herr].
    intros r1 tx1. apply RPeek_quiet.
  - left. by eapply RPeek_quiet.
  - rewrite Herr in Hop. by eapply (push_failing (CallRPush bucket key values)).
  - rewrite Herr in Hop. by eapply (push_failing (CallLPush bucket key values)).
  - left. eapply (pop_failing _ _ _ (LPeek C bucket key)); [|exact Hop|exact Herr].
    intros r1 tx1. apply LPeek_quiet.
  - left. by eapply LPeek_quiet.
  - left. by eapply LSize_quiet.
  - left. by eapply LRange_quiet.
  - by eapply LRem_failing.
  - left. rewrite Herr in Hop. by eapply LSet_failing.
  - left. rewrite Herr in Hop. by eapply LTrim_failing.
  - left. by eapply LRemByIndex_failing.
  - left. by eapply LKeys_quiet.
  - rewrite Herr in Hop. by apply ExpireList_failing.
  - left. by eapply GetListTTL_quiet.
Qed.

End Failing.

(** * The properties of the specification *)



(** C7.  With the transaction open and the key not reported expired, RPush
    and LPush of a key that contains the separator fail with
    ErrSeparatorForListKey, and the call appends no record: the pending
    writes are those before the call. *)
Theorem push_separator_violation (C : Collab) (bucket key : string)
    (values : list string) (tx tx1 : Tx) :
  closed tx = false ->
  CheckExpire C bucket key tx = Some (false, tx1) ->
  Contains key SeparatorForListKey = true ->
  RPush C bucket key values tx = Some (Some ErrSeparatorForListKey, tx1) ∧
  LPush C bucket key values tx = Some (Some ErrSeparatorForListKey, tx1) ∧
  pendingWrites tx1 = pendingWrites tx.
Proof.
  intros Hopen Hgate Hsep.
  unfold RPush, LPush, bind, checkTxIsClosed. rewrite Hopen, Hgate, Hsep.
  repeat split.
  by destruct (CheckExpire_frame _ _ _ _ _ _ Hgate) as (_ & _ & ? & _).
Qed.

Lemma push_separator_violation_witness :
  RPush (Sample.collab None) "b" "k|1" ["v"] Sample.tx0
    = Some (Some ErrSeparatorForListKey, Sample.tx0) ∧
  LPush (Sample.collab None) "b" "k|1" ["v"] Sample.tx0
    = Some (Some ErrSeparatorForListKey, Sample.tx0) ∧
  pendingWrites Sample.tx0 = pendingWrites Sample.tx0.
Proof.
  apply (push_separator_violation (Sample.collab None) "b" "k|1" ["v"]
           Sample.tx0 Sample.tx0); vm_compute; reflexivity.
Defined.

(** C6.  With the validation passed (transaction open, key not reported
    expired, no separator in the key), RPush and LPush hand the values to
    the log one record per value and in input order; when the log refuses
    value [n] the call returns that error and the records of the [n] values
    before it stay in the pending writes.  A nil result means every value
    has its record. *)
Theorem push_not_atomic (C : Collab) (bucket key : string)
    (values : list string) (tx tx1 : Tx) :
  closed tx = false ->
  CheckExpire C bucket key tx = Some (false, tx1) ->
  Contains key SeparatorForListKey = false ->
  pushed C bucket key DataRPushFlag values tx1 (RPush C bucket key values tx) ∧
  pushed C bucket key DataLPushFlag values tx1 (LPush C bucket key values tx) ∧
  (∀ tx', RPush C bucket key values tx = Some (None, tx') ->
     pendingWrites tx' =
     pendingWrites tx ++ (entry bucket key DataRPushFlag (now tx) <$> values)) ∧
  (∀ tx', LPush C bucket key values tx = Some (None, tx') ->
     pendingWrites tx' =
     pendingWrites tx ++ (entry bucket key DataLPushFlag (now tx) <$> values)).
Proof.
  intros Hopen Hgate Hsep.
  destruct (CheckExpire_frame _ _ _ _ _ _ Hgate) as (_ & Hnow & Hlog & _).
  assert (HR : RPush C bucket key values tx = push C bucket key DataRPushFlag values tx1).
  { unfold RPush, bind, checkTxIsClosed. by rewrite Hopen, Hgate, Hsep. }
  assert (HL : LPush C bucket key values tx = push C bucket key DataLPushFlag values tx1).
  { unfold LPush, bind, checkTxIsClosed. by rewrite Hopen, Hgate, Hsep. }
  rewrite HR, HL.
  assert (Hall : ∀ flag tx',
            push C bucket key flag values tx1 = Some (None, tx') ->
            pendingWrites tx' =
            pendingWrites tx ++ (entry bucket key flag (now tx) <$> values)).
  { intros flag tx' Hpush.
    destruct (push_spec C bucket key flag values tx1) as (n & r & Heq & Hcase).
    rewrite Heq in Hpush. injection Hpush as -> <-.
    destruct Hcase as [[_ ->]|(v & e & _ & [=] & _)].
    rewrite firstn_all. simpl. by rewrite Hlog, Hnow. }
  repeat split; try apply push_spec; apply Hall.
Qed.

Lemma push_not_atomic_witness :
  pushed (Sample.collab None) "b" "mylist" DataRPushFlag ["D"; "E"; "F"] Sample.tx0
    (RPush (Sample.collab None) "b" "mylist" ["D"; "E"; "F"] Sample.tx0) ∧
  pushed (Sample.collab None) "b" "mylist" DataLPushFlag ["D"; "E"; "F"] Sample.tx0
    (LPush (Sample.collab None) "b" "mylist" ["D"; "E"; "F"] Sample.tx0) ∧
  (∀ tx', RPush (Sample.collab None) "b" "mylist" ["D"; "E"; "F"] Sample.tx0
            = Some (None, tx') ->
     pendingWrites tx' =
     pendingWrites Sample.tx0 ++
       (entry "b" "mylist" DataRPushFlag (now Sample.tx0) <$> ["D"; "E"; "F"])) ∧
  (∀ tx', LPush (Sample.collab None) "b" "mylist" ["D"; "E"; "F"] Sample.tx0
            = Some (None, tx') ->
     pendingWrites tx' =
     pendingWrites Sample.tx0 ++
       (entry "b" "mylist" DataLPushFlag (now Sample.tx0) <$> ["D"; "E"; "F"])).
Proof.
  apply (push_not_atomic (Sample.collab None) "b" "mylist" ["D"; "E"; "F"]
           Sample.tx0 Sample.tx0); vm_compute; reflexivity.
Defined.

(** C3.  LRem, once LSize has answered [size] without error: if
    [count > size] or [count < -size] the call fails with ErrCount and the
    pending writes are those before the call; otherwise, when the log
    accepts it, exactly one record is added, under the unchanged key, with
    the value ["<count>|<value>"] and the flag DataLRemFlag, and the call
    then runs the structure's [LRemNum] and returns its count and error, the
    structure [LRemNum] leaves being the registered one; when the log
    refuses the record the call returns the log's error and adds nothing. *)
Theorem LRem_record_then_removal (C : Collab) (bucket key : string) (count : Z)
    (value : string) (tx tx1 : Tx) (size : Z) :
  LSize C bucket key tx = Some ((size, None), tx1) ->
  let e := entry bucket key DataLRemFlag (now tx)
                 (IntToStr count +:+ SeparatorForListKey +:+ value) in
  pendingWrites tx1 = pendingWrites tx ∧
  (count > size ∨ count < - size ->
     LRem C bucket key count value tx = Some ((0, Some ErrCount), tx1)) ∧
  (- size <= count <= size -> put_err C tx1 e = None ->
     ∃ l1, lists tx1 !! bucket = Some l1 ∧
       LRem C bucket key count value tx =
         Some ((l_LRemNum C (now tx) l1 key count value).1,
               setList bucket (l_LRemNum C (now tx) l1 key count value).2
                       (addLog tx1 [e])) ∧
       pendingWrites (setList bucket (l_LRemNum C (now tx) l1 key count value).2
                              (addLog tx1 [e]))
       = pendingWrites tx ++ [e]) ∧
  (- size <= count <= size -> ∀ err, put_err C tx1 e = Some err ->
     LRem C bucket key count value tx = Some ((0, Some err), tx1)).
Proof.
  intros Hsize e.
  assert (Hun : untouched C bucket tx tx1).
  { rewrite LSize_guarded in Hsize.
    eapply guardedQuery_untouched; [|exact Hsize]. intros HP t l. apply HP. }
  destruct (untouched_frame _ _ _ _ Hun) as (_ & Hnow & Hlog & _ & _).
  assert (Hreg : ∃ l1, lists tx1 !! bucket = Some l1).
  { rewrite LSize_guarded in Hsize.
    destruct (guardedQuery_ok _ _ _ _ _ _ _ _ Hsize) as (_ & l & _ & _ & _ & ->).
    rewrite setList_lookup. by eauto. }
  split; [done|].
  unfold LRem, bind. rewrite Hsize. cbn [fst snd].
  repeat split.
  - intros Hout.
    rewrite (orb_true_intro (bool_decide (count > size)) (bool_decide (count < - size)));
      [done|].
    destruct Hout; [left | right]; by apply bool_decide_eq_true.
  - intros Hin Hput. destruct Hreg as [l1 Hl1]. exists l1. split; [done|].
    rewrite !bool_decide_eq_false_2 by lia. cbn [orb].
    rewrite push_one, Hnow. fold e. rewrite Hput.
    unfold getList. cbn [lists addLog].
    rewrite Hl1. rewrite (call_spec _ _ _ l1) by done.
    cbn [now addLog]. rewrite Hnow. split; [done|].
    cbn [pendingWrites setList addLog]. by rewrite Hlog.
  - intros Hin err Hput.
    rewrite !bool_decide_eq_false_2 by lia. cbn [orb].
    rewrite push_one, Hnow. fold e. by rewrite Hput.
Qed.

Lemma LRem_record_then_removal_witness :
  LRem (Sample.collab None) "b" "mylist" 4 "A" Sample.tx0
    = Some ((0, Some ErrCount), Sample.tx0) ∧
  ∃ tx', LRem (Sample.collab None) "b" "mylist" 1 "A" Sample.tx0
           = Some ((1, None), tx') ∧
         pendingWrites tx' =
           [mkEntry "b" "mylist" "1|A" 0 DataLRemFlag 1000 DataStructureList].
Proof.
  assert (Hsize : LSize (Sample.collab None) "b" "mylist" Sample.tx0
                  = Some ((3, None), Sample.tx0)) by (vm_compute; reflexivity).
  split.
  - pose proof (LRem_record_then_removal (Sample.collab None) "b" "mylist" 4 "A"
                  Sample.tx0 Sample.tx0 3 Hsize) as (_ & Hout & _).
    apply Hout. lia.
  - pose proof (LRem_record_then_removal (Sample.collab None) "b" "mylist" 1 "A"
                  Sample.tx0 Sample.tx0 3 Hsize) as (_ & _ & Hin & _).
    destruct Hin as (l1 & Hl1 & Hrem & Hlog); [lia | vm_compute; reflexivity |].
    eexists. split.
    + rewrite Hrem. f_equal. f_equal.
      assert (l1 = Sample.l0) as ->
        by (apply (inj Some); rewrite <- Hl1; vm_compute; reflexivity).
      vm_compute. reflexivity.
    + rewrite Hlog. vm_compute. reflexivity.
Defined.

(** C5.  LTrim with the transaction open and the key not reported expired,
    [l1] being the structure the gate left.  If the key is not among the
    items the call fails with ErrKeyNotFound.  Otherwise LRange is run with
    the given start and end; its items are dropped and it hands nothing to
    the log (it leaves the state untouched but for what the structure's own
    queries do); if it reports an error LTrim returns that error and no
    record is added; if not, exactly one record with the key
    ["<key>|<start>"], the value ["<end>"] and the flag DataLTrimFlag goes
    to the log, and is added when the log accepts it. *)
Theorem LTrim_validates_then_records (C : Collab) (bucket key : string)
    (start end_ : Z) (tx tx1 : Tx) (l1 : List) :
  closed tx = false ->
  CheckExpire C bucket key tx = Some (false, tx1) ->
  lists tx1 !! bucket = Some l1 ->
  let e := entry bucket (key +:+ SeparatorForListKey +:+ IntToStr start)
                 DataLTrimFlag (now tx) (IntToStr end_) in
  (Items l1 !! key = None ->
     LTrim C bucket key start end_ tx = Some (Some ErrKeyNotFound, tx1) ∧
     pendingWrites tx1 = pendingWrites tx) ∧
  (is_Some (Items l1 !! key) ->
     ∃ r tx2, LRange C bucket key start end_ tx1 = Some (r, tx2) ∧
       untouched C bucket tx1 tx2 ∧
       pendingWrites tx2 = pendingWrites tx ∧
       match r.2 with
       | Some err => LTrim C bucket key start end_ tx = Some (Some err, tx2)
       | None =>
           match put_err C tx2 e with
           | Some err => LTrim C bucket key start end_ tx = Some (Some err, tx2)
           | None => LTrim C bucket key start end_ tx = Some (None, addLog tx2 [e])
           end
       end).
Proof.
  intros Hopen Hgate Hl1 e.
  destruct (CheckExpire_frame _ _ _ _ _ _ Hgate) as (_ & Hnow & Hlog & _ & Hreg).
  destruct (proj1 Hreg) as [l Hl]; [by eauto|].
  assert (Hhead :
            LTrim C bucket key start end_ tx =
            (if negb (isSome (Items l1 !! key)) then Some (Some ErrKeyNotFound, tx1)
             else bind (LRange C bucket key start end_)
                    (fun r => match r.2 with
                              | Some e0 => ret (Some e0)
                              | None => push C bucket
                                          (key +:+ SeparatorForListKey +:+ IntToStr start)
                                          DataLTrimFlag [IntToStr end_]
                              end) tx1)).
  { unfold LTrim, bind at 1 2 3 4, checkTxIsClosed, getList, readList.
    rewrite Hopen. cbn beta iota. rewrite Hl, Hgate. cbn beta iota. rewrite Hl1.
    by destruct (Items l1 !! key). }
  rewrite Hhead. split.
  - intros ->. by split.
  - intros [vs ->]. cbn [isSome negb].
    destruct (guardedQuery_total C bucket key []
                (fun t l0 => l_LRange C t l0 key start end_) tx1) as (r & tx2 & Hrange).
    rewrite <- LRange_guarded in Hrange.
    assert (Hun : untouched C bucket tx1 tx2).
    { rewrite LRange_guarded in Hrange.
      eapply guardedQuery_untouched; [|exact Hrange]. intros HP t l0. apply HP. }
    destruct (untouched_frame _ _ _ _ Hun) as (_ & Hnow2 & Hlog2 & _ & _).
    exists r, tx2. split; [done|]. split; [done|]. split; [congruence|].
    unfold bind. rewrite Hrange.
    destruct r.2 as [err|]; [done|].
    rewrite push_one, Hnow2, Hnow. fold e. by destruct (put_err C tx2 e).
Qed.

Lemma LTrim_validates_then_records_witness :
  LTrim (Sample.collab None) "b" "nokey" 0 1 Sample.tx0
    = Some (Some ErrKeyNotFound, Sample.tx0) ∧
  LTrim (Sample.collab None) "b" "mylist" 2 7 Sample.tx0
    = Some (Some (ErrOther "wrong start or end"), Sample.tx0) ∧
  LTrim (Sample.collab None) "b" "mylist" 0 (-2) Sample.tx0
    = Some (None, addLog Sample.tx0
                    [mkEntry "b" "mylist|0" "-2" 0 DataLTrimFlag 1000 DataStructureList]).
Proof.
  assert (Hopen : closed Sample.tx0 = false) by reflexivity.
  assert (Hl : lists Sample.tx0 !! "b" = Some Sample.l0) by (vm_compute; reflexivity).
  assert (Hg : ∀ key, key = "nokey" ∨ key = "mylist" ->
            CheckExpire (Sample.collab None) "b" key Sample.tx0
            = Some (false, Sample.tx0))
    by (intros key [->| ->]; vm_compute; reflexivity).
  split; [|split].
  - pose proof (LTrim_validates_then_records (Sample.collab None) "b" "nokey" 0 1
                  Sample.tx0 Sample.tx0 Sample.l0 Hopen (Hg _ (or_introl eq_refl)) Hl)
      as [Habsent _].
    apply Habsent. vm_compute. reflexivity.
  - pose proof (LTrim_validates_then_records (Sample.collab None) "b" "mylist" 2 7
                  Sample.tx0 Sample.tx0 Sample.l0 Hopen (Hg _ (or_intror eq_refl)) Hl)
      as [_ Hpresent].
    destruct Hpresent as (r & tx2 & Hrange & _ & _ & Hcase);
      [vm_compute; by eauto|].
    vm_compute in Hrange. injection Hrange as <- <-. exact Hcase.
  - pose proof (LTrim_validates_then_records (Sample.collab None) "b" "mylist" 0 (-2)
                  Sample.tx0 Sample.tx0 Sample.l0 Hopen (Hg _ (or_intror eq_refl)) Hl)
      as [_ Hpresent].
    destruct Hpresent as (r & tx2 & Hrange & _ & _ & Hcase);
      [vm_compute; by eauto|].
    vm_compute in Hrange. injection Hrange as <- <-. exact Hcase.
Defined.

(** C4.  LRemByIndex with the transaction open and the key not reported
    expired, [l1] being the structure the gate left.  The indexes are
    sorted ascending (a sorted rearrangement of the given ones) and the
    structure's precheck is asked about the sorted indexes; it hands
    nothing to the log, and with pure queries the state is still the one
    before the call.  If the precheck count is zero or the precheck
    reports an error, the call returns the precheck's count and error and
    no record is added.  Otherwise the sorted indexes are marshaled and
    exactly one record with the unchanged key, the marshaled indexes as
    value and the flag DataLRemByIndex goes to the log; when the log accepts
    it the call returns the precheck count. *)
Theorem LRemByIndex_precheck_then_record (C : Collab) (bucket key : string)
    (indexes : list Z) (tx tx1 : Tx) (l1 : List) :
  closed tx = false ->
  CheckExpire C bucket key tx = Some (false, tx1) ->
  lists tx1 !! bucket = Some l1 ->
  let sorted := sort_Ints indexes in
  let pre := l_LRemByIndexPreCheck C (now tx) l1 key sorted in
  let tx2 := setList bucket pre.2 tx1 in
  let e := entry bucket key DataLRemByIndex (now tx) (MarshalInts C sorted).1 in
  Sorted Z.le sorted ∧ sorted ≡ₚ indexes ∧
  pendingWrites tx2 = pendingWrites tx ∧
  (Pure C -> tx2 = tx) ∧
  (pre.1.1 = 0 ∨ pre.1.2 ≠ None ->
     LRemByIndex C bucket key indexes tx = Some (pre.1, tx2)) ∧
  (pre.1.1 ≠ 0 -> pre.1.2 = None ->
     match (MarshalInts C sorted).2 with
     | Some err => LRemByIndex C bucket key indexes tx = Some ((0, Some err), tx2)
     | None =>
         match put_err C tx2 e with
         | Some err =>
             LRemByIndex C bucket key indexes tx = Some ((0, Some err), tx2)
         | None =>
             LRemByIndex C bucket key indexes tx
             = Some ((pre.1.1, None), addLog tx2 [e])
         end
     end).
Proof.
  intros Hopen Hgate Hl1 sorted pre tx2 e.
  destruct (CheckExpire_frame _ _ _ _ _ _ Hgate) as (_ & Hnow & Hlog & _ & Hreg).
  destruct (proj1 Hreg) as [l Hl]; [by eauto|].
  split; [apply (Sorted_merge_sort Z.le)|].
  split; [apply (merge_sort_Permutation Z.le)|].
  split; [done|].
  split.
  { intros HP.
    pose proof (CheckExpire_untouched _ _ _ _ _ _ Hgate) as [_ Hsame].
    specialize (Hsame HP). subst tx1. unfold tx2, pre.
    rewrite (pure_LRemByIndexPreCheck C HP). by apply setList_same. }
  assert (Hhead :
    LRemByIndex C bucket key indexes tx =
    (if bool_decide (pre.1.1 = 0) || isSome pre.1.2 then Some (pre.1, tx2)
     else match (MarshalInts C sorted).2 with
          | Some e0 => Some ((0, Some e0), tx2)
          | None =>
              match push C bucket key DataLRemByIndex [(MarshalInts C sorted).1] tx2 with
              | Some (Some e0, tx3) => Some ((0, Some e0), tx3)
              | Some (None, tx3) => Some ((pre.1.1, None), tx3)
              | None => None
              end
          end)).
  { unfold LRemByIndex, bind at 1 2 3 4, checkTxIsClosed, getList.
    rewrite Hopen. cbn beta iota. rewrite Hl, Hgate. cbn beta iota.
    rewrite (call_spec _ _ _ l1 Hl1), Hnow. fold sorted pre tx2.
    destruct (bool_decide (pre.1.1 = 0) || isSome pre.1.2); [done|].
    destruct (MarshalInts C sorted).2; [done|].
    unfold bind. by destruct (push C _ _ _ _ tx2) as [[[?|] ?]|]. }
  rewrite Hhead. split.
  - intros [Hz|He].
    + by rewrite (bool_decide_eq_true_2 _ Hz).
    + destruct pre.1.2; [|done]. by rewrite orb_true_r.
  - intros Hnz He. rewrite (bool_decide_eq_false_2 _ Hnz), He. cbn [orb isSome].
    destruct (MarshalInts C sorted).2; [done|].
    rewrite push_one. change (now tx2) with (now tx1). rewrite Hnow. fold e.
    by destruct (put_err C tx2 e).
Qed.

Lemma LRemByIndex_precheck_then_record_witness :
  LRemByIndex (Sample.collab None) "b" "mylist" [7; 5] Sample.tx0
    = Some ((0, None), Sample.tx0) ∧
  LRemByIndex (Sample.collab None) "b" "mylist" [5; 2; 0] Sample.tx0
    = Some ((2, None),
            addLog Sample.tx0
              [mkEntry "b" "mylist" "0,2,5" 0 DataLRemByIndex 1000 DataStructureList]).
Proof.
  assert (Hopen : closed Sample.tx0 = false) by reflexivity.
  assert (Hl : lists Sample.tx0 !! "b" = Some Sample.l0) by (vm_compute; reflexivity).
  assert (Hg : CheckExpire (Sample.collab None) "b" "mylist" Sample.tx0
               = Some (false, Sample.tx0)) by (vm_compute; reflexivity).
  split.
  - pose proof (LRemByIndex_precheck_then_record (Sample.collab None) "b" "mylist"
                  [7; 5] Sample.tx0 Sample.tx0 Sample.l0 Hopen Hg Hl)
      as (_ & _ & _ & _ & Hzero & _).
    rewrite Hzero; [vm_compute; reflexivity | left; vm_compute; reflexivity].
  - pose proof (LRemByIndex_precheck_then_record (Sample.collab None) "b" "mylist"
                  [5; 2; 0] Sample.tx0 Sample.tx0 Sample.l0 Hopen Hg Hl)
      as (_ & _ & _ & _ & _ & Hsome).
    apply Hsome; [vm_compute; discriminate | vm_compute; reflexivity].
Defined.

(** C8.  ExpireList on an open transaction and a registered bucket writes
    the time to live and the time stamp of the key into the structure's
    tables at once, and then hands exactly one record with the flag
    DataExpireListFlag and the time to live as value to the log.  When the
    log accepts it the record is added; when the log refuses it the call
    returns the log's error and the tables keep the new entry.  In both
    cases GetListTTL afterwards queries the updated structure, and returns
    the new time to live when the structure returns the stored one. *)
Theorem ExpireList_ttl_ahead_of_log (C : Collab) (bucket key : string) (ttl : Z)
    (tx : Tx) (l : List) :
  closed tx = false ->
  lists tx !! bucket = Some l ->
  let l' := withTTL l key ttl (now tx) in
  let tx1 := setList bucket l' tx in
  let e := entry bucket key DataExpireListFlag (now tx) (Int64ToStr ttl) in
  ∃ r tx',
    ExpireList C bucket key ttl tx = Some (r, tx') ∧
    lists tx' !! bucket = Some l' ∧
    TTL l' !! key = Some ttl ∧ TimeStamp l' !! key = Some (uint64 (now tx)) ∧
    match put_err C tx1 e with
    | None => r = None ∧ tx' = addLog tx1 [e]
    | Some err => r = Some err ∧ tx' = tx1
    end ∧
    GetListTTL C bucket key tx' =
      Some ((l_GetListTTL C (now tx) l' key).1,
            setList bucket (l_GetListTTL C (now tx) l' key).2 tx') ∧
    (TTLStored C ->
     ∃ tx'', GetListTTL C bucket key tx' = Some ((ttl, None), tx'')).
Proof.
  intros Hopen Hl l' tx1 e.
  pose proof (ExpireList_run C bucket key ttl tx l Hopen Hl) as Hrun.
  fold l' tx1 e in Hrun.
  assert (Hget : ∀ tx', closed tx' = false -> now tx' = now tx ->
            lists tx' !! bucket = Some l' ->
            GetListTTL C bucket key tx' =
            Some ((l_GetListTTL C (now tx) l' key).1,
                  setList bucket (l_GetListTTL C (now tx) l' key).2 tx')).
  { intros tx' Hopen' Hnow' Hl'. unfold GetListTTL, bind, checkTxIsClosed, getList.
    rewrite Hopen'. cbn beta iota. rewrite Hl'.
    by rewrite (call_spec _ _ _ l' Hl'), Hnow'. }
  assert (Httl : TTL l' !! key = Some ttl) by apply lookup_insert_eq.
  assert (Hts : TimeStamp l' !! key = Some (uint64 (now tx))) by apply lookup_insert_eq.
  assert (Hl1 : lists tx1 !! bucket = Some l') by apply setList_lookup.
  rewrite Hrun. destruct (put_err C tx1 e) as [err|].
  - exists (Some err), tx1. repeat split; try done.
    + by apply Hget.
    + intros Hstored. eexists. rewrite (Hget tx1) by done.
      by rewrite (Hstored _ _ _ _ Httl Hts).
  - exists None, (addLog tx1 [e]). repeat split; try done.
    + by apply Hget.
    + intros Hstored. eexists. rewrite (Hget (addLog tx1 [e])) by done.
      by rewrite (Hstored _ _ _ _ Httl Hts).
Qed.

Lemma Sample_TTLStored (nilExpire : option bool) :
  TTLStored (Sample.collab nilExpire).
Proof.
  intros t l k v Httl _. simpl. unfold Sample.getTTL. by rewrite Httl.
Qed.

Lemma ExpireList_ttl_ahead_of_log_witness :
  ∃ tx', ExpireList (Sample.collab None) "b" "mylist" 30 Sample.txFull
           = Some (Some (ErrOther "too many pending writes"), tx') ∧
         pendingWrites tx' = pendingWrites Sample.txFull ∧
         (∃ l', lists tx' !! "b" = Some l' ∧ TTL l' !! "mylist" = Some 30) ∧
         ∃ tx'', GetListTTL (Sample.collab None) "b" "mylist" tx'
                 = Some ((30, None), tx'').
Proof.
  assert (Hl : lists Sample.txFull !! "b" = Some Sample.l0) by (vm_compute; reflexivity).
  destruct (ExpireList_ttl_ahead_of_log (Sample.collab None) "b" "mylist" 30
              Sample.txFull Sample.l0 eq_refl Hl)
    as (r & tx' & Hrun & Hreg & Httl & _ & Hcase & _ & Hget).
  match type of Hcase with
  | match ?p with _ => _ end =>
      assert (Hp : p = Some (ErrOther "too many pending writes"))
        by (vm_compute; reflexivity);
      rewrite Hp in Hcase
  end.
  destruct Hcase as [-> ->]. eexists. split; [exact Hrun|].
  split; [reflexivity|]. split; [by eauto|].
  apply Hget, Sample_TTLStored.
Defined.

Lemma Sample_Pure (nilExpire : option bool) : Pure (Sample.collab nilExpire).
Proof.
  split; simpl; intros; try done.
  - unfold Sample.peekLast. by repeat case_match.
  - unfold Sample.peekFirst. by repeat case_match.
  - unfold Sample.size. by repeat case_match.
  - unfold Sample.range. by repeat case_match.
  - unfold Sample.preCheck. by repeat case_match.
  - unfold Sample.getTTL. by repeat case_match.
Qed.


Lemma Sample_LogErrorsForeign (nilExpire : option bool) :
  LogErrorsForeign (Sample.collab nilExpire).
Proof.
  intros tx e err. simpl. unfold Sample.logVerdict.
  case_bool_decide; [|done]. by intros [= <-].
Qed.

(** C1, as the code has it.  With the transaction open, every operation
    other than RPush and LPush, called on a bucket that has no list
    structure, fails with ErrBucket and leaves the state as it was (so it
    appends no record).  RPush and LPush have no bucket check of their
    own. *)
Theorem missing_bucket_fails_ErrBucket (C : Collab) (c : Call) (tx : Tx) :
  closed tx = false ->
  lists tx !! bucket_of c = None ->
  is_push c = false ->
  ∃ r, run C c tx = Some (r, tx) ∧ reply_err r = Some ErrBucket.
Proof.
  intros Hopen Hnil Hpush.
  destruct c; try discriminate Hpush; cbn [bucket_of] in Hnil; cbn [run];
    unfold fmapM, RPop, LPop, RPeek, LPeek, LSize, LRange, LRem, LSize, LSet,
      LTrim, LRemByIndex, LKeys, ExpireList, GetListTTL,
      bind, checkTxIsClosed, getList, ret;
    rewrite Hopen, ?Hnil; cbn beta iota; rewrite ?Hnil;
    eexists; (split; [reflexivity|]); reflexivity.
Qed.

Lemma missing_bucket_fails_ErrBucket_witness :
  ∃ r, run (Sample.collab None) (CallLTrim "nobucket" "k" 0 1) Sample.tx0
         = Some (r, Sample.tx0) ∧
       reply_err r = Some ErrBucket.
Proof.
  apply (missing_bucket_fails_ErrBucket (Sample.collab None)
           (CallLTrim "nobucket" "k" 0 1) Sample.tx0); vm_compute; reflexivity.
Defined.

(** C1 fails as stated.  On a registry without the bucket ["b"], RPush with
    the transaction open does not fail with ErrBucket, whatever [IsExpire]
    does on the nil structure: if it dereferences it the call panics, if it
    answers true the call fails with ErrKeyNotFound, and if it answers false
    the call succeeds and its record is pending.  LPush does the same.  And
    with the transaction closed, an operation on a missing bucket fails
    with ErrTxClosed. *)
Lemma RPush_missing_bucket_not_ErrBucket :
  lists Sample.txEmpty !! "b" = None ∧
  RPush (Sample.collab None) "b" "k" ["v"] Sample.txEmpty = None ∧
  RPush (Sample.collab (Some true)) "b" "k" ["v"] Sample.txEmpty
    = Some (Some ErrKeyNotFound, Sample.txEmpty) ∧
  RPush (Sample.collab (Some false)) "b" "k" ["v"] Sample.txEmpty
    = Some (None, addLog Sample.txEmpty [entry "b" "k" DataRPushFlag 1000 "v"]) ∧
  LPush (Sample.collab (Some false)) "b" "k" ["v"] Sample.txEmpty
    = Some (None, addLog Sample.txEmpty [entry "b" "k" DataLPushFlag 1000 "v"]) ∧
  lists Sample.txClosed !! "nobucket" = None ∧
  LSize (Sample.collab None) "nobucket" "k" Sample.txClosed
    = Some ((0, Some ErrTxClosed), Sample.txClosed).
Proof. vm_compute. repeat split. Qed.

(** C2, as the code has it.  Every operation, whenever it returns an
    error, has done one of four things.  It was quiet: nothing was handed
    to the log and the state is the one before the call but for what query
    calls of the list structure (the gate's [IsExpire], [Size], [LRange],
    the peeks, the precheck, [GetListTTL]) made of the structure of the
    bucket.  Or it is a push of several values whose value [n > 0] the log
    refused: the records of the values before it are pending.  Or it is
    ExpireList whose record the log refused: the tables hold the new entry.
    Or it is LRem and the error is that of the structure's [LRemNum], which
    runs after the record of the call is pending.  Hence, the log passing
    none of the validation errors, an operation other than LRem that fails
    with a validation error was quiet: it appended no record, and with pure
    queries it changed no state. *)
Theorem failing_call_effect (C : Collab) (c : Call) (tx : Tx) (r : Reply)
    (tx' : Tx) (e : error) :
  run C c tx = Some (r, tx') ->
  reply_err r = Some e ->
  failing_effect C c tx tx' e ∧
  (LogErrorsForeign C -> validation e = true ->
   (∀ b k n v, c ≠ CallLRem b k n v) ->
   quiet C (bucket_of c) tx tx' ∧
   pendingWrites tx' = pendingWrites tx ∧
   (Pure C -> tx' = tx)).
Proof.
  intros Hrun Herr.
  pose proof (run_failing C c tx r tx' e Hrun Herr) as Heff.
  split; [done|]. intros Hlog Hval Hrem.
  assert (Hq : quiet C (bucket_of c) tx tx').
  { destruct Heff as [Hq|[Hpush|[Hexp|Hlrem]]]; [done| | |].
    - destruct Hpush as (? & ? & ? & ? & ? & ? & _ & _ & _ & _ & _ & Hput).
      apply Hlog in Hput. congruence.
    - destruct Hexp as (? & ? & ? & _ & _ & _ & Hput).
      apply Hlog in Hput. congruence.
    - destruct Hlrem as (k & n & v & ? & ? & Hc & _). by destruct (Hrem _ _ _ _ Hc). }
  split; [done|].
  pose proof (quiet_untouched C _ _ _ Hq) as Hun.
  split; [by eapply untouched_log | apply Hun].
Qed.

Lemma failing_call_effect_witness :
  failing_effect (Sample.collab None) (CallLSet "b" "mylist" 7 "Q")
    Sample.tx0 Sample.tx0 ErrIndexOutOfRange ∧
  quiet (Sample.collab None) "b" Sample.tx0 Sample.tx0 ∧
  pendingWrites Sample.tx0 = pendingWrites Sample.tx0.
Proof.
  assert (Hrun : run (Sample.collab None) (CallLSet "b" "mylist" 7 "Q") Sample.tx0
                 = Some (ReplyErr (Some ErrIndexOutOfRange), Sample.tx0))
    by (vm_compute; reflexivity).
  destruct (failing_call_effect (Sample.collab None)
              (CallLSet "b" "mylist" 7 "Q") Sample.tx0 _ _ ErrIndexOutOfRange
              Hrun eq_refl) as [Heff Hval].
  destruct (Hval (Sample_LogErrorsForeign None) eq_refl) as (Hq & Hlog & _);
    [discriminate|].
  split; [exact Heff|]. split; [exact Hq | exact Hlog].
Defined.

(** C2 fails as stated.  With a structure whose [LRemNum] reports ErrCount
    when fewer elements equal the value than the count asks for, LRem of
    two ["A"] on the list [A; B; C] passes its own count check (the size is
    3), hands its record to the log and then fails with ErrCount: a
    validation error with the record pending, in a call that is neither a
    push nor ExpireList.  And with an [IsExpire] that evicts, LSize of an
    expired key fails with ErrKeyNotFound and leaves the structure without
    the key. *)
Lemma validation_failure_with_effect :
  LRem Sample.collabStrict "b" "mylist" 2 "A" Sample.tx0
    = Some ((0, Some ErrCount),
            addLog Sample.tx0
              [mkEntry "b" "mylist" "2|A" 0 DataLRemFlag 1000 DataStructureList]) ∧
  validation ErrCount = true ∧
  LSize Sample.collabEvict "b" "old" Sample.tx0
    = Some ((0, Some ErrKeyNotFound),
            setList "b" (Sample.evict 1000 Sample.l0 "old").2 Sample.tx0) ∧
  validation ErrKeyNotFound = true ∧
  Items Sample.l0 !! "old" = Some ["X"] ∧
  Items (Sample.evict 1000 Sample.l0 "old").2 !! "old" = None.
Proof. vm_compute. repeat split. Qed.

(** C9, as the code has it.  LKeys on an open transaction and a registered
    bucket returns, and hands nothing to the log.  It deals with the keys
    of the walk in order, each on the structure registered when the loop
    comes to it: a key no longer among the items or reported expired by the
    gate is passed over, the other keys are handed to the callback when the
    pattern matches them, and the loop ends at the first key where the
    match reports an error (which is returned) or the callback answers
    false.  So every key handed to the callback was among the items, not
    reported expired and matched; and in a walk that comes to each key
    once, a key reported expired is not handed to the callback.  The
    structure LKeys leaves is what the gate's [IsExpire] calls made of it:
    the enumeration changes nothing else, and nothing at all when the
    queries are pure. *)
Theorem LKeys_skips_expired_keys (C : Collab) (bucket pattern : string)
    (f : string -> bool) (tx : Tx) (l : List) :
  closed tx = false ->
  lists tx !! bucket = Some l ->
  let keys := range_keys C (Items l) in
  ∃ (r : list string * option error) (l' : List),
    LKeys C bucket pattern f tx = Some (r, setList bucket l' tx) ∧
    pendingWrites (setList bucket l' tx) = pendingWrites tx ∧
    walked C (now tx) pattern f keys l r l' ∧
    (∀ key, key ∈ fst r ->
       ∃ lk, (key, lk) ∈ visits C (now tx) keys l ∧
             is_Some (Items lk !! key) ∧
             (l_IsExpire C (now tx) lk key).1 = false ∧
             path_Match C pattern key = (true, None)) ∧
    (NoDup keys ->
     ∀ key lk, (key, lk) ∈ visits C (now tx) keys l ->
               (l_IsExpire C (now tx) lk key).1 = true -> key ∉ fst r) ∧
    (Pure C -> setList bucket l' tx = tx).
Proof.
  intros Hopen Hl keys.
  destruct (LKeys_range_walked C bucket pattern f keys tx l Hl)
    as (r & l' & Hloop & Hwalk).
  exists r, l'.
  assert (Hhanded : ∀ key, key ∈ fst r ->
            ∃ lk, (key, lk) ∈ visits C (now tx) keys l ∧
                  is_Some (Items lk !! key) ∧
                  (l_IsExpire C (now tx) lk key).1 = false ∧
                  path_Match C pattern key = (true, None)).
  { intros key Hin.
    destruct (walked_seen C _ _ _ _ _ _ _ _ Hwalk Hin) as (lk & Hvis & Hh).
    exists lk. split; [done|]. unfold handed, visited in Hh.
    apply andb_prop in Hh as [[Hp He]%andb_prop Hm].
    apply bool_decide_eq_true in Hm. apply negb_true_iff in He.
    repeat split; try done. by destruct (Items lk !! key). }
  split.
  { unfold LKeys, bind, checkTxIsClosed, getList. by rewrite Hopen, Hl. }
  split; [done|]. split; [done|]. split; [exact Hhanded|]. split.
  - intros Hnd key lk Hvis Hexp Hin.
    destruct (Hhanded key Hin) as (lk' & Hvis' & _ & Hne & _).
    rewrite (visits_unique C _ _ _ _ _ _ Hnd Hvis Hvis') in Hexp. congruence.
  - intros HP. rewrite (queried_pure C _ _ _ HP (walked_queried C _ _ _ _ _ _ _ Hwalk)).
    by apply setList_same.
Qed.

Lemma LKeys_skips_expired_keys_witness :
  ∃ l', LKeys Sample.collabEvict "b" "*" (fun _ => true) Sample.tx0
          = Some ((["mylist"], None), setList "b" l' Sample.tx0) ∧
        pendingWrites (setList "b" l' Sample.tx0) = pendingWrites Sample.tx0.
Proof.
  assert (Hl : lists Sample.tx0 !! "b" = Some Sample.l0) by (vm_compute; reflexivity).
  destruct (LKeys_skips_expired_keys Sample.collabEvict "b" "*" (fun _ => true)
              Sample.tx0 Sample.l0 eq_refl Hl)
    as (r & l' & Hrun & Hlog & _).
  exists l'. split; [|exact Hlog].
  assert (Hc : LKeys Sample.collabEvict "b" "*" (fun _ => true) Sample.tx0
               = Some ((["mylist"], None),
                       setList "b" (Sample.evict 1000 Sample.l0 "old").2 Sample.tx0))
    by (vm_compute; reflexivity).
  rewrite Hrun in Hc. injection Hc as -> _. exact Hrun.
Defined.

(** C9 fails as stated.  With an [IsExpire] that evicts, LKeys passes over
    the expired key ["old"], hands only ["mylist"] to the callback and
    appends no record, but the structure it leaves has lost ["old"] from
    its items and its tables: the skip went with an eviction. *)
Lemma LKeys_skip_evicts :
  LKeys Sample.collabEvict "b" "*" (fun _ => true) Sample.tx0
    = Some ((["mylist"], None),
            setList "b" (Sample.evict 1000 Sample.l0 "old").2 Sample.tx0) ∧
  (l_IsExpire Sample.collabEvict 1000 Sample.l0 "old").1 = true ∧
  Items Sample.l0 !! "old" = Some ["X"] ∧
  Items (Sample.evict 1000 Sample.l0 "old").2 !! "old" = None ∧
  TTL Sample.l0 !! "old" = Some 10 ∧
  TTL (Sample.evict 1000 Sample.l0 "old").2 !! "old" = None ∧
  lists (setList "b" (Sample.evict 1000 Sample.l0 "old").2 Sample.tx0) !! "b"
    ≠ lists Sample.tx0 !! "b".
Proof. vm_compute. repeat split. discriminate. Qed.

(** * Further properties of the operations *)

(** X1.  On a closed transaction every operation, the pushes included and
    whatever the bucket and the key, returns ErrTxClosed and leaves the
    state as it was; no structure is consulted, so none can panic. *)
Theorem closed_tx_fails_everywhere (C : Collab) (c : Call) (tx : Tx) :
  closed tx = true ->
  ∃ r, run C c tx = Some (r, tx) ∧ reply_err r = Some ErrTxClosed.
Proof.
  intros Hclosed.
  destruct c; cbn [run];
    unfold fmapM, RPop, LPop, RPeek, LPeek, RPush, LPush, LSize, LRange, LRem,
      LSize, LSet, LTrim, LRemByIndex, LKeys, ExpireList, GetListTTL,
      bind, checkTxIsClosed, ret;
    rewrite Hclosed; cbn beta iota;
    eexists; (split; [reflexivity|]); reflexivity.
Qed.

Lemma closed_tx_fails_everywhere_witness :
  ∃ r, run (Sample.collab None) (CallRPush "nobucket" "k|1" ["v"]) Sample.txClosed
         = Some (r, Sample.txClosed) ∧
       reply_err r = Some ErrTxClosed.
Proof.
  apply (closed_tx_fails_everywhere (Sample.collab None)
           (CallRPush "nobucket" "k|1" ["v"]) Sample.txClosed).
  reflexivity.
Defined.

(** X2.  With the transaction open and the bucket registered, every
    operation that consults the expiration gate (all but LKeys, ExpireList
    and GetListTTL) fails with ErrKeyNotFound when the structure reports its
    key expired, before any other check on the key or the arguments (a
    separator in the key of a push, a count, an index, a range); the state
    it leaves is the one [IsExpire] left, and the pending writes are those
    before the call. *)
Theorem expired_key_fails (C : Collab) (c : Call) (tx : Tx) (l : List)
    (key : string) :
  closed tx = false ->
  lists tx !! bucket_of c = Some l ->
  gate_key c = Some key ->
  (l_IsExpire C (now tx) l key).1 = true ->
  ∃ r, run C c tx
       = Some (r, setList (bucket_of c) (l_IsExpire C (now tx) l key).2 tx) ∧
       reply_err r = Some ErrKeyNotFound ∧
       pendingWrites (setList (bucket_of c) (l_IsExpire C (now tx) l key).2 tx)
       = pendingWrites tx.
Proof.
  intros Hopen Hl Hkey Hexp.
  assert (Hguard : ∀ A (dflt : A) m,
            guardedQuery C (bucket_of c) key dflt m tx =
            Some ((dflt, Some ErrKeyNotFound),
                  setList (bucket_of c) (l_IsExpire C (now tx) l key).2 tx)).
  { intros A dflt m. rewrite guardedQuery_spec, Hopen, Hl. cbn zeta.
    by rewrite Hexp. }
  pose proof (CheckExpire_registered C _ key _ l Hl) as Hgate.
  rewrite Hexp in Hgate.
  destruct c; try discriminate Hkey; injection Hkey as ->;
    cbn [bucket_of] in *; cbn [run]; unfold fmapM, bind at 1.
  - unfold RPop, bind. rewrite RPeek_guarded, Hguard. by eexists.
  - rewrite RPeek_guarded, Hguard. by eexists.
  - unfold RPush, bind, checkTxIsClosed. rewrite Hopen, Hgate. by eexists.
  - unfold LPush, bind, checkTxIsClosed. rewrite Hopen, Hgate. by eexists.
  - unfold LPop, bind. rewrite LPeek_guarded, Hguard. by eexists.
  - rewrite LPeek_guarded, Hguard. by eexists.
  - rewrite LSize_guarded, Hguard. by eexists.
  - rewrite LRange_guarded, Hguard. by eexists.
  - unfold LRem, bind. rewrite LSize_guarded, Hguard. by eexists.
  - unfold LSet, bind, checkTxIsClosed, getList.
    rewrite Hopen. cbn beta iota. rewrite Hl, Hgate. by eexists.
  - unfold LTrim, bind, checkTxIsClosed, getList.
    rewrite Hopen. cbn beta iota. rewrite Hl, Hgate. by eexists.
  - unfold LRemByIndex, bind, checkTxIsClosed, getList.
    rewrite Hopen. cbn beta iota. rewrite Hl, Hgate. by eexists.
Qed.

Lemma expired_key_fails_witness :
  ∃ r, run (Sample.collab None) (CallRPush "b" "old" ["v"]) Sample.tx0
       = Some (r, Sample.tx0) ∧
       reply_err r = Some ErrKeyNotFound.
Proof.
  assert (Hl : lists Sample.tx0 !! "b" = Some Sample.l0) by (vm_compute; reflexivity).
  assert (Hexp : (l_IsExpire (Sample.collab None) (now Sample.tx0) Sample.l0 "old").1
                 = true) by (vm_compute; reflexivity).
  destruct (expired_key_fails (Sample.collab None) (CallRPush "b" "old" ["v"])
              Sample.tx0 Sample.l0 "old" eq_refl Hl eq_refl Hexp)
    as (r & Hrun & Herr & _).
  exists r. split; [|done]. rewrite Hrun. reflexivity.
Defined.

(** ** Framing: what every run of an operation keeps *)

Section Framing.

Context (C : Collab).

Implicit Types (tx : Tx) (bucket key : string) (P : Z -> Entry -> Prop).

Lemma framed_refl P (n : nat) bucket tx : framed P n bucket tx tx.
Proof.
  repeat split; try done. exists []. rewrite app_nil_r.
  repeat split; [simpl; lia | constructor].
Qed.

Lemma framed_trans P (n1 n2 : nat) bucket tx1 tx2 tx3 :
  framed P n1 bucket tx1 tx2 -> framed P n2 bucket tx2 tx3 ->
  framed P (n1 + n2) bucket tx1 tx3.
Proof.
  intros (Hc1 & Ht1 & Hd1 & Ho1 & es1 & Hw1 & Hn1 & Hp1)
         (Hc2 & Ht2 & Hd2 & Ho2 & es2 & Hw2 & Hn2 & Hp2).
  repeat split; try congruence.
  - intros b' Hne. by rewrite Ho2, Ho1.
  - exists (es1 ++ es2). rewrite Hw2, Hw1, <- app_assoc. split; [done|].
    split; [rewrite length_app; lia|].
    apply Forall_app. split; [done|]. by rewrite <- Ht1.
Qed.

Lemma framed_weaken P (Q : Z -> Entry -> Prop) (n n' : nat) bucket tx tx' :
  (n <= n')%nat -> (∀ e, P (now tx) e -> Q (now tx) e) ->
  framed P n bucket tx tx' -> framed Q n' bucket tx tx'.
Proof.
  intros Hn HPQ (Hc & Ht & Hd & Ho & es & Hw & Hlen & Hp).
  repeat split; try done. exists es. repeat split; [done | lia |].
  eapply Forall_impl; [exact Hp | exact HPQ].
Qed.

Lemma untouched_framed P (n : nat) bucket tx tx' :
  untouched C bucket tx tx' -> framed P n bucket tx tx'.
Proof.
  intros [[->|(l' & Hs & ->)] _]; [apply framed_refl|].
  repeat split; try done.
  - unfold setList; simpl. by apply dom_insert_lookup_L.
  - intros b' Hne. by apply setList_lookup_ne.
  - exists []. simpl. rewrite app_nil_r. repeat split; [lia | constructor].
Qed.

Lemma keeps_untouched {A} P (n : nat) bucket (m : M A) :
  (∀ tx a tx', m tx = Some (a, tx') -> untouched C bucket tx tx') ->
  keeps P n bucket m.
Proof. intros Hm tx a tx' Hrun. eapply untouched_framed, Hm, Hrun. Qed.

Lemma keeps_ret {A} P (n : nat) bucket (a : A) : keeps P n bucket (ret a).
Proof. intros tx a' tx' [= <- <-]. apply framed_refl. Qed.

Lemma keeps_bind_pre {A B} P (n : nat) bucket (m : M A) (k : A -> M B) :
  keeps P 0 bucket m -> (∀ a, keeps P n bucket (k a)) ->
  keeps P n bucket (bind m k).
Proof.
  intros Hm Hk tx b tx'. unfold bind.
  destruct (m tx) as [[a tx1]|] eqn:Hrun; [|done]. intros Hrun'.
  change n with (0 + n)%nat. eapply framed_trans; [by eapply Hm | by eapply Hk].
Qed.

Lemma keeps_bind_post {A B} P (n : nat) bucket (m : M A) (k : A -> M B) :
  keeps P n bucket m -> (∀ a, keeps P 0 bucket (k a)) ->
  keeps P n bucket (bind m k).
Proof.
  intros Hm Hk tx b tx'. unfold bind.
  destruct (m tx) as [[a tx1]|] eqn:Hrun; [|done]. intros Hrun'.
  rewrite <- (Nat.add_0_r n). eapply framed_trans; [by eapply Hm | by eapply Hk].
Qed.

Lemma keeps_checkTx P (n : nat) bucket : keeps P n bucket checkTxIsClosed.
Proof. intros tx a tx' [= <- <-]. apply framed_refl. Qed.

Lemma keeps_getList P (n : nat) bucket : keeps P n bucket (getList bucket).
Proof. intros tx a tx' [= <- <-]. apply framed_refl. Qed.

Lemma keeps_readList {R} P (n : nat) bucket (g : List -> R) :
  keeps P n bucket (readList bucket g).
Proof.
  intros tx a tx'. unfold readList, panic.
  destruct (lists tx !! bucket); [|done]. intros [= <- <-]. apply framed_refl.
Qed.

(** A method of the structure, whatever it does to the structure. *)
Lemma keeps_call {R} P (n : nat) bucket (m : Z -> List -> R * List) :
  keeps P n bucket (call bucket m).
Proof.
  intros tx a tx'. unfold call, panic.
  destruct (lists tx !! bucket) as [l|] eqn:Hl; [|done].
  destruct (m (now tx) l) as [r l']. intros [= <- <-].
  repeat split; try done.
  - unfold setList; simpl. by apply dom_insert_lookup_L.
  - intros b' Hne. by apply setList_lookup_ne.
  - exists []. simpl. rewrite app_nil_r. repeat split; [lia | constructor].
Qed.

Lemma keeps_CheckExpire P (n : nat) bucket key :
  keeps P n bucket (CheckExpire C bucket key).
Proof. apply keeps_untouched. intros tx a tx'. apply CheckExpire_untouched. Qed.

Lemma keeps_push P bucket key (flag : Flag) (values : list string) :
  (∀ t v, v ∈ values -> P t (entry bucket key flag t v)) ->
  keeps P (length values) bucket (push C bucket key flag values).
Proof.
  intros HP tx a tx' Hrun.
  destruct (push_spec C bucket key flag values tx) as (n & r & Hpush & _).
  rewrite Hpush in Hrun. injection Hrun as <- <-.
  repeat split; try done.
  exists (entry bucket key flag (now tx) <$> take n values).
  split; [done|]. split.
  - rewrite length_fmap, length_take. lia.
  - apply Forall_fmap, Forall_forall. intros v Hv. apply HP.
    by eapply subseteq_take.
Qed.

Lemma keeps_push_one P bucket key (flag : Flag) (value : string) :
  (∀ t, P t (entry bucket key flag t value)) ->
  keeps P 1 bucket (push C bucket key flag [value]).
Proof.
  intros HP. apply (keeps_push P bucket key flag [value]).
  intros t v ->%list_elem_of_singleton. apply HP.
Qed.

End Framing.

(** One step of a proof that an operation is framed: a step that hands
    nothing to the log is passed over, a branch is split. *)
Ltac keeps_quiet :=
  first [ apply keeps_ret | apply keeps_checkTx | apply keeps_getList
        | apply keeps_readList | apply keeps_call | apply keeps_CheckExpire ].

Ltac keeps_step :=
  first
    [ keeps_quiet
    | apply keeps_bind_pre; [solve [keeps_quiet] | intros ?]
    | match goal with
      | |- keeps _ _ _ (match ?x with _ => _ end) => destruct x
      end ].

Section FramedRuns.

Context (C : Collab).

Implicit Types (bucket key : string) (P : Z -> Entry -> Prop).

Lemma keeps_guardedQuery {A} P (n : nat) bucket key (dflt : A) m :
  keeps P n bucket (guardedQuery C bucket key dflt m).
Proof. unfold guardedQuery. repeat keeps_step. Qed.

Lemma keeps_quiet_any {A} P (n : nat) bucket (m : M A) :
  keeps P 0 bucket m -> keeps P n bucket m.
Proof.
  intros Hm tx a tx' Hrun.
  eapply framed_weaken; [apply Nat.le_0_l | | by eapply Hm]. auto.
Qed.

Lemma keeps_LKeys_range P bucket pattern f (keys : list string) :
  keeps P 0 bucket (LKeys_range C bucket pattern f keys).
Proof.
  induction keys as [|key rest IH]; cbn [LKeys_range]; [apply keeps_ret|].
  repeat keeps_step; try done.
  apply keeps_bind_pre; [exact IH | intros ?; apply keeps_ret].
Qed.

(** Every run of every operation is framed by what the operation may hand
    to the log. *)
Lemma run_keeps (c : Call) :
  keeps (emits C c) (records_bound c) (bucket_of c) (run C c).
Proof.
  destruct c; cbn [run records_bound bucket_of]; unfold fmapM.
  - (* RPop *)
    apply keeps_bind_post; [|intros ?; apply keeps_ret].
    unfold RPop. rewrite RPeek_guarded.
    apply keeps_bind_pre; [apply keeps_guardedQuery|]. intros r.
    destruct r.2; [apply keeps_ret|].
    apply keeps_bind_post; [|intros ?; apply keeps_ret].
    apply keeps_push_one. intros t. by eexists.
  - (* RPeek *)
    apply keeps_bind_post; [|intros ?; apply keeps_ret].
    rewrite RPeek_guarded. apply keeps_guardedQuery.
  - (* RPush *)
    apply keeps_bind_post; [|intros ?; apply keeps_ret].
    unfold RPush. repeat keeps_step.
    apply keeps_push. intros t v Hv. by exists v.
  - (* LPush *)
    apply keeps_bind_post; [|intros ?; apply keeps_ret].
    unfold LPush. repeat keeps_step.
    apply keeps_push. intros t v Hv. by exists v.
  - (* LPop *)
    apply keeps_bind_post; [|intros ?; apply keeps_ret].
    unfold LPop. rewrite LPeek_guarded.
    apply keeps_bind_pre; [apply keeps_guardedQuery|]. intros r.
    destruct r.2; [apply keeps_ret|].
    apply keeps_bind_post; [|intros ?; apply keeps_ret].
    apply keeps_push_one. intros t. by eexists.
  - (* LPeek *)
    apply keeps_bind_post; [|intros ?; apply keeps_ret].
    rewrite LPeek_guarded. apply keeps_guardedQuery.
  - (* LSize *)
    apply keeps_bind_post; [|intros ?; apply keeps_ret].
    rewrite LSize_guarded. apply keeps_guardedQuery.
  - (* LRange *)
    apply keeps_bind_post; [|intros ?; apply keeps_ret].
    rewrite LRange_guarded. apply keeps_guardedQuery.
  - (* LRem *)
    apply keeps_bind_post; [|intros ?; apply keeps_ret].
    unfold LRem. rewrite LSize_guarded.
    apply keeps_bind_pre; [apply keeps_guardedQuery|]. intros r.
    destruct r.2; [apply keeps_ret|]. cbn zeta.
    destruct (_ || _); [apply keeps_ret|].
    apply keeps_bind_post; [by apply keeps_push_one|].
    intros err. repeat keeps_step.
  - (* LSet *)
    apply keeps_bind_post; [|intros ?; apply keeps_ret].
    unfold LSet. repeat keeps_step.
    apply keeps_bind_pre.
    { rewrite LSize_guarded. apply keeps_guardedQuery. }
    intros r. cbn zeta. destruct (_ || _); [apply keeps_ret|].
    by apply keeps_push_one.
  - (* LTrim *)
    apply keeps_bind_post; [|intros ?; apply keeps_ret].
    unfold LTrim. repeat keeps_step.
    apply keeps_bind_pre.
    { rewrite LRange_guarded. apply keeps_guardedQuery. }
    intros r. destruct r.2; [apply keeps_ret|].
    by apply keeps_push_one.
  - (* LRemByIndex *)
    apply keeps_bind_post; [|intros ?; apply keeps_ret].
    unfold LRemByIndex. repeat (cbn zeta; keeps_step).
    apply keeps_bind_post; [by apply keeps_push_one|].
    intros err. repeat keeps_step.
  - (* LKeys *)
    apply keeps_bind_post; [|intros ?; apply keeps_ret].
    unfold LKeys. repeat keeps_step. apply keeps_LKeys_range.
  - (* ExpireList *)
    apply keeps_bind_post; [|intros ?; apply keeps_ret].
    unfold ExpireList. repeat (cbn zeta; keeps_step). cbn zeta.
    apply keeps_bind_post; [by apply keeps_push_one|].
    intros err. repeat keeps_step.
  - (* GetListTTL *)
    apply keeps_bind_post; [|intros ?; apply keeps_ret].
    unfold GetListTTL. repeat keeps_step.
Qed.

End FramedRuns.

(** ** The separator and the decimal renderings *)

Lemma pretty_N_char_not_sep (d : N) : pretty_N_char d ≠ Ascii.ascii_of_nat 124.
Proof. unfold pretty_N_char. by repeat case_match. Qed.

Lemma pretty_N_go_sepfree (x : N) (s : string) :
  sepfree s -> sepfree (pretty_N_go x s).
Proof.
  revert s. induction (N.lt_wf_0 x) as [x _ IH]; intros s Hs.
  assert (x = 0 ∨ 0 < x)%N as [->|Hpos] by lia.
  - by rewrite pretty_N_go_0.
  - rewrite pretty_N_go_step by done. apply IH; [by apply N.div_lt|].
    unfold sepfree. simpl. intros [Hc|Hin]; [|done].
    by apply pretty_N_char_not_sep in Hc.
Qed.

(** A decimal rendering never contains the separator. *)
Lemma IntToStr_sepfree (n : Z) : sepfree (IntToStr n).
Proof.
  assert (Hpos : ∀ p : positive, sepfree (pretty p)).
  { intros p. unfold pretty, pretty_positive, pretty, pretty_N.
    case_decide; [done|]. apply pretty_N_go_sepfree. unfold sepfree. simpl. tauto. }
  unfold IntToStr, pretty, pretty_Z. destruct n as [|p|p].
  - unfold sepfree. simpl. intros [Hc|[]]. discriminate Hc.
  - apply Hpos.
  - unfold sepfree. simpl. intros [Hc|Hin]; [discriminate Hc|]. by apply (Hpos p).
Qed.

Lemma append_nil_l (s : string) : "" +:+ s = s.
Proof. reflexivity. Qed.

Lemma append_cons (c : Ascii.ascii) (s x : string) :
  String c s +:+ x = String c (s +:+ x).
Proof. reflexivity. Qed.

Lemma append_sep (d : string) :
  SeparatorForListKey +:+ d = String (Ascii.ascii_of_nat 124) d.
Proof. reflexivity. Qed.

Lemma sepfree_cons (c : Ascii.ascii) (s : string) :
  sepfree (String c s) <-> c ≠ Ascii.ascii_of_nat 124 ∧ sepfree s.
Proof.
  unfold sepfree. simpl. split.
  - intros H. split; [intros ->; apply H; by left | intros Hin; apply H; by right].
  - intros [Hc Hs] [Heq|Hin]; [by destruct Hc | by destruct Hs].
Qed.

Lemma sepfree_append_sep (s d : string) :
  ¬ sepfree (s +:+ SeparatorForListKey +:+ d).
Proof.
  induction s as [|c s IH].
  - rewrite append_nil_l, append_sep, sepfree_cons. by intros [? _].
  - rewrite append_cons, sepfree_cons. by intros [_ ?].
Qed.

(** Splitting at the last separator: the part after it has none. *)
Lemma append_sep_inj_r (s s' d d' : string) :
  sepfree d -> sepfree d' ->
  s +:+ SeparatorForListKey +:+ d = s' +:+ SeparatorForListKey +:+ d' ->
  s = s' ∧ d = d'.
Proof.
  intros Hd Hd'. revert s'. induction s as [|c s IH]; intros [|c' s'];
    rewrite ?append_nil_l, ?append_cons, ?append_sep.
  - by intros [= ->].
  - intros [= <- ->]. by destruct (sepfree_append_sep s' d').
  - intros [= -> <-]. by destruct (sepfree_append_sep s d).
  - intros [= -> Heq]. by destruct (IH _ Heq) as [-> ->].
Qed.

(** Splitting at the first separator: the part before it has none. *)
Lemma append_sep_inj_l (d d' v v' : string) :
  sepfree d -> sepfree d' ->
  d +:+ SeparatorForListKey +:+ v = d' +:+ SeparatorForListKey +:+ v' ->
  d = d' ∧ v = v'.
Proof.
  revert d'. induction d as [|c d IH]; intros [|c' d'] Hd Hd';
    rewrite ?append_nil_l, ?append_cons, ?append_sep.
  - by intros [= ->].
  - intros [= <- _]. apply sepfree_cons in Hd' as [Hc _]. by destruct Hc.
  - intros [= -> _]. apply sepfree_cons in Hd as [Hc _]. by destruct Hc.
  - intros [= -> Heq].
    apply sepfree_cons in Hd as [_ Hd]. apply sepfree_cons in Hd' as [_ Hd'].
    by destruct (IH d' Hd Hd' Heq) as [-> ->].
Qed.

(** The record LRem, LSet, LTrim or ExpireList builds determines the
    operation and all its arguments. *)
Lemma record_of_inj (c c' : Call) (t t' : Z) (e : Entry) :
  record_of c t = Some e -> record_of c' t' = Some e -> c = c'.
Proof.
  destruct c; try discriminate; destruct c'; try discriminate;
    unfold record_of, entry; intros [= <-] [= Hb Hk Hv _]; subst.
  - (* LRem *)
    apply append_sep_inj_l in Hv as [Hn ->]; try apply IntToStr_sepfree.
    apply (inj pretty) in Hn. by subst.
  - (* LSet *)
    apply append_sep_inj_r in Hk as [-> Hn]; try apply IntToStr_sepfree.
    apply (inj pretty) in Hn. by subst.
  - (* LTrim *)
    apply append_sep_inj_r in Hk as [-> Hn]; try apply IntToStr_sepfree.
    apply (inj pretty) in Hn. apply (inj pretty) in Hv. by subst.
  - (* ExpireList *)
    apply (inj pretty) in Hv. by subst.
Qed.

Lemma entry_stamped (bucket key : string) (flag : Flag) (t : Z) (value : string) :
  stamped bucket (Some flag) t (entry bucket key flag t value).
Proof.
  assert (Hu : 0 <= uint64 t < 2 ^ 64) by (apply Z.mod_pos_bound; lia).
  unfold stamped, entry. cbn [Bucket EntryFlag EntryTTL Timestamp Ds].
  destruct Hu. by repeat split.
Qed.

Lemma emits_stamped (C : Collab) (c : Call) (t : Z) (e : Entry) :
  emits C c t e -> stamped (bucket_of c) (flag_of c) t e.
Proof.
  destruct c; cbn [emits record_of bucket_of flag_of];
    first [ intros (? & _ & ->) | intros (? & ->)
          | intros [= ->] | intros -> | intros [] ];
    apply entry_stamped.
Qed.

(** X3.  Whatever an operation returns, it only adds to the pending
    writes: the transaction stays as open as it was, the clock reading and
    the set of registered buckets are the same (no operation, not even a
    push on a missing bucket, registers or drops a structure), the
    structures of the other buckets are the same, and the pending writes are
    those before the call followed by at most [records_bound c] records
    (none for the reads, one per value for a push, one otherwise), each for
    the bucket of the call, with the flag of the operation, the Persistent
    ttl, the time stamp of the clock as a 64-bit value, and the list tag. *)
Theorem every_call_appends_only (C : Collab) (c : Call) (tx : Tx) (r : Reply)
    (tx' : Tx) :
  run C c tx = Some (r, tx') ->
  closed tx' = closed tx ∧ now tx' = now tx ∧
  dom (lists tx') = dom (lists tx) ∧
  (∀ b', b' ≠ bucket_of c -> lists tx' !! b' = lists tx !! b') ∧
  ∃ es, pendingWrites tx' = pendingWrites tx ++ es ∧
        (length es <= records_bound c)%nat ∧
        Forall (stamped (bucket_of c) (flag_of c) (now tx)) es.
Proof.
  intros Hrun.
  apply (framed_weaken (emits C c) _ (records_bound c) (records_bound c));
    [done | intros e; apply emits_stamped | by eapply run_keeps].
Qed.

Lemma every_call_appends_only_witness :
  ∃ es, pendingWrites Sample.txFull = pendingWrites Sample.tx0 ++ es ∧
        (length es <= 3)%nat ∧
        Forall (stamped "b" (Some DataRPushFlag) 1000) es.
Proof.
  assert (Hrun : run (Sample.collab None) (CallRPush "b" "mylist" ["D"; "E"; "F"])
                   Sample.tx0
                 = Some (ReplyErr (Some (ErrOther "too many pending writes")),
                         Sample.txFull)) by (vm_compute; reflexivity).
  exact (proj2 (proj2 (proj2 (proj2
           (every_call_appends_only _ _ _ _ _ Hrun))))).
Defined.

(** X4.  No operation ever hands a record with the Delete flag to the log:
    a Delete record among the pending writes after a call was already there
    before it, also when the expiration gate reported the key expired
    during the call. *)
Theorem no_call_appends_delete (C : Collab) (c : Call) (tx : Tx) (r : Reply)
    (tx' : Tx) (e : Entry) :
  run C c tx = Some (r, tx') ->
  e ∈ pendingWrites tx' -> EntryFlag e = DataDeleteFlag ->
  e ∈ pendingWrites tx.
Proof.
  intros Hrun Hin Hdel.
  destruct (run_keeps C c _ _ _ Hrun) as (_ & _ & _ & _ & es & Hlog & _ & Hes).
  rewrite Hlog, elem_of_app in Hin. destruct Hin as [Hin|Hin]; [done|].
  rewrite Forall_forall in Hes.
  destruct (emits_stamped _ _ _ _ (Hes _ Hin)) as (_ & Hflag & _).
  rewrite Hdel in Hflag. by destruct c.
Qed.

Lemma no_call_appends_delete_witness :
  Sample.tombstone ∈ pendingWrites Sample.txDeleted.
Proof.
  assert (Hrun : run (Sample.collab None) (CallRPush "b" "mylist" ["D"])
                   Sample.txDeleted
                 = Some (ReplyErr None,
                         addLog Sample.txDeleted
                           [entry "b" "mylist" DataRPushFlag 1000 "D"]))
    by (vm_compute; reflexivity).
  apply (no_call_appends_delete _ _ _ _ _ Sample.tombstone Hrun);
    [|reflexivity].
  cbn [pendingWrites addLog Sample.txDeleted app]. apply list_elem_of_here.
Defined.

(** X5.  The records of LRem, LSet, LTrim and ExpireList can be told apart
    and decoded: if two such calls (on any transactions, with any
    collaborators) each added exactly the same record to the pending
    writes, they are the same operation with the same bucket, key and
    arguments.  The key of a composite ["<key>|<n>"] is recovered whatever
    characters it holds, since a decimal rendering has no separator. *)
Theorem record_determines_call (C C' : Collab) (c c' : Call) (tx tx' : Tx)
    (r r' : Reply) (tx1 tx1' : Tx) (e : Entry) :
  is_Some (record_of c 0) -> is_Some (record_of c' 0) ->
  run C c tx = Some (r, tx1) -> run C' c' tx' = Some (r', tx1') ->
  pendingWrites tx1 = pendingWrites tx ++ [e] ->
  pendingWrites tx1' = pendingWrites tx' ++ [e] ->
  c = c'.
Proof.
  assert (Hrec : ∀ D d t0 a t1, is_Some (record_of d 0) ->
            run D d t0 = Some (a, t1) ->
            pendingWrites t1 = pendingWrites t0 ++ [e] ->
            record_of d (now t0) = Some e).
  { intros D d t0 a t1 Hd Hrun Hlog.
    destruct (run_keeps D d _ _ _ Hrun) as (_ & _ & _ & _ & es & Hlog' & _ & Hes).
    rewrite Hlog in Hlog'. apply app_inv_head in Hlog' as <-.
    apply Forall_inv in Hes.
    destruct d; cbn [emits] in Hes; try done; by destruct Hd. }
  intros Hc Hc' Hrun Hrun' Hlog Hlog'.
  eapply record_of_inj; by eapply Hrec.
Qed.

Lemma record_determines_call_witness :
  CallLSet "b" "mylist" 1 "Q" = CallLSet "b" "mylist" 1 "Q".
Proof.
  pose (e := mkEntry "b" "mylist|1" "Q" 0 DataLSetFlag 1000 DataStructureList).
  assert (Hrun : ∀ n, n = None ∨ n = Some true ->
            run (Sample.collab n) (CallLSet "b" "mylist" 1 "Q") Sample.tx0
            = Some (ReplyErr None, addLog Sample.tx0 [e]))
    by (intros n [->| ->]; vm_compute; reflexivity).
  exact (record_determines_call (Sample.collab None) (Sample.collab (Some true))
           (CallLSet "b" "mylist" 1 "Q") (CallLSet "b" "mylist" 1 "Q")
           Sample.tx0 Sample.tx0 (ReplyErr None) (ReplyErr None)
           (addLog Sample.tx0 [e]) (addLog Sample.tx0 [e]) e
           (ex_intro _ _ eq_refl) (ex_intro _ _ eq_refl)
           (Hrun _ (or_introl eq_refl)) (Hrun _ (or_intror eq_refl))
           eq_refl eq_refl).
Defined.

(** X6.  LRemByIndex does not depend on the order in which the indexes are
    given: two index lists that are rearrangements of each other (repeated
    indexes included) lead to the same precheck, the same record and the
    same result. *)
Theorem LRemByIndex_order_irrelevant (C : Collab) (bucket key : string)
    (indexes indexes' : list Z) (tx : Tx) :
  indexes ≡ₚ indexes' ->
  sort_Ints indexes = sort_Ints indexes' ∧
  LRemByIndex C bucket key indexes tx = LRemByIndex C bucket key indexes' tx.
Proof.
  intros Hperm.
  assert (Hsort : sort_Ints indexes = sort_Ints indexes').
  { apply (Sorted_unique Z.le); try apply (Sorted_merge_sort Z.le).
    unfold sort_Ints. by rewrite !merge_sort_Permutation. }
  split; [done|]. unfold LRemByIndex. by rewrite Hsort.
Qed.

Lemma LRemByIndex_order_irrelevant_witness :
  sort_Ints [5; 2; 0; 2] = sort_Ints [2; 0; 2; 5] ∧
  LRemByIndex (Sample.collab None) "b" "mylist" [5; 2; 0; 2] Sample.tx0
  = LRemByIndex (Sample.collab None) "b" "mylist" [2; 0; 2; 5] Sample.tx0.
Proof.
  apply (LRemByIndex_order_irrelevant (Sample.collab None) "b" "mylist"
           [5; 2; 0; 2] [2; 0; 2; 5] Sample.tx0).
  apply (Permutation_trans (l' := [2; 5; 0; 2])).
  - apply perm_swap.
  - apply perm_skip. apply (Permutation_trans (l' := [0; 5; 2])).
    + apply perm_swap.
    + apply perm_skip. apply perm_swap.
Defined.

Section Pops.

Context (C : Collab).



End Pops.





(** X9.  LSet with the transaction open and the key not reported expired,
    [l1] being the structure the gate left.  If the key is not among the
    items the call fails with ErrKeyNotFound.  Otherwise LSize is run and
    only its number is used, its error being dropped: an index below zero
    or not below that number fails with ErrIndexOutOfRange (so every index
    does when LSize fails with the number 0), and for an index within the
    bounds exactly one record with the key ["<key>|<index>"], the new
    element as value and the flag DataLSetFlag goes to the log.  No failure
    adds a record. *)
Theorem LSet_bounds_then_record (C : Collab) (bucket key : string) (index : Z)
    (value : string) (tx tx1 : Tx) (l1 : List) :
  closed tx = false ->
  CheckExpire C bucket key tx = Some (false, tx1) ->
  lists tx1 !! bucket = Some l1 ->
  let e := entry bucket (key +:+ SeparatorForListKey +:+ IntToStr index)
                 DataLSetFlag (now tx) value in
  (Items l1 !! key = None ->
     LSet C bucket key index value tx = Some (Some ErrKeyNotFound, tx1) ∧
     pendingWrites tx1 = pendingWrites tx) ∧
  (is_Some (Items l1 !! key) ->
   ∀ size err tx2,
     LSize C bucket key tx1 = Some ((size, err), tx2) ->
     pendingWrites tx2 = pendingWrites tx ∧
     (index < 0 ∨ index >= size ->
        LSet C bucket key index value tx = Some (Some ErrIndexOutOfRange, tx2)) ∧
     (0 <= index < size ->
        LSet C bucket key index value tx =
        match put_err C tx2 e with
        | None => Some (None, addLog tx2 [e])
        | Some err' => Some (Some err', tx2)
        end)).
Proof.
  intros Hopen Hgate Hl1 e.
  destruct (CheckExpire_frame _ _ _ _ _ _ Hgate) as (_ & Hnow & Hlog & _ & Hreg).
  destruct (proj1 Hreg) as [l Hl]; [by eauto|].
  assert (Hhead :
    LSet C bucket key index value tx =
    (if negb (isSome (Items l1 !! key)) then Some (Some ErrKeyNotFound, tx1)
     else bind (LSize C bucket key)
            (fun r => if bool_decide (index < 0) || bool_decide (index >= r.1)
                      then ret (Some ErrIndexOutOfRange)
                      else push C bucket
                             (key +:+ SeparatorForListKey +:+ IntToStr index)
                             DataLSetFlag [value]) tx1)).
  { unfold LSet, bind at 1 2 3 4, checkTxIsClosed, getList, readList.
    rewrite Hopen. cbn beta iota. rewrite Hl, Hgate. cbn beta iota. rewrite Hl1.
    by destruct (Items l1 !! key). }
  rewrite Hhead. split.
  - intros ->. by split.
  - intros [vs ->] size err tx2 Hsize. cbn [isSome negb].
    pose proof (LSize_untouched _ _ _ _ _ _ Hsize) as Hun.
    destruct (untouched_frame _ _ _ _ Hun) as (_ & Hnow2 & Hlog2 & _ & _).
    split; [congruence|]. unfold bind. rewrite Hsize. cbn [fst].
    split.
    + intros Hout.
      rewrite (orb_true_intro (bool_decide (index < 0)) (bool_decide (index >= size)));
        [done|].
      destruct Hout; [left | right]; by apply bool_decide_eq_true.
    + intros Hin. rewrite !bool_decide_eq_false_2 by lia. cbn [orb].
      rewrite push_one, Hnow2, Hnow. fold e. by destruct (put_err C tx2 e).
Qed.

Lemma LSet_bounds_then_record_witness :
  LSet (Sample.collab None) "b" "nokey" 0 "Q" Sample.tx0
    = Some (Some ErrKeyNotFound, Sample.tx0) ∧
  LSet (Sample.collab None) "b" "mylist" 3 "Q" Sample.tx0
    = Some (Some ErrIndexOutOfRange, Sample.tx0) ∧
  LSet (Sample.collab None) "b" "mylist" (-1) "Q" Sample.tx0
    = Some (Some ErrIndexOutOfRange, Sample.tx0) ∧
  LSet (Sample.collab None) "b" "mylist" 2 "Q" Sample.tx0
    = Some (None, addLog Sample.tx0
                    [mkEntry "b" "mylist|2" "Q" 0 DataLSetFlag 1000 DataStructureList]).
Proof.
  assert (Hl : lists Sample.tx0 !! "b" = Some Sample.l0) by (vm_compute; reflexivity).
  assert (Hg : ∀ key, key = "nokey" ∨ key = "mylist" ->
            CheckExpire (Sample.collab None) "b" key Sample.tx0
            = Some (false, Sample.tx0))
    by (intros key [->| ->]; vm_compute; reflexivity).
  assert (Hsize : LSize (Sample.collab None) "b" "mylist" Sample.tx0
                  = Some ((3, None), Sample.tx0)) by (vm_compute; reflexivity).
  assert (Hitems : is_Some (Items Sample.l0 !! "mylist")) by (vm_compute; by eauto).
  pose proof (fun index =>
    proj2 (LSet_bounds_then_record (Sample.collab None) "b" "mylist" index "Q"
             Sample.tx0 Sample.tx0 Sample.l0 eq_refl (Hg _ (or_intror eq_refl)) Hl)
      Hitems 3 None Sample.tx0 Hsize) as Hset.
  split; [|split; [|split]].
  - apply (LSet_bounds_then_record (Sample.collab None) "b" "nokey" 0 "Q"
             Sample.tx0 Sample.tx0 Sample.l0 eq_refl (Hg _ (or_introl eq_refl)) Hl).
    vm_compute. reflexivity.
  - destruct (Hset 3) as (_ & Hout & _). apply Hout. lia.
  - destruct (Hset (-1)) as (_ & Hout & _). apply Hout. lia.
  - destruct (Hset 2) as (_ & _ & Hin). apply Hin. lia.
Defined.

Section EnumerationCorollaries.

Context (C : Collab).

Lemma LKeys_run (bucket pattern : string) f (tx : Tx) (l : List) :
  Pure C -> closed tx = false -> lists tx !! bucket = Some l ->
  ∃ r, LKeys C bucket pattern f tx = Some (r, tx) ∧
       enumerated C (now tx) l pattern f (range_keys C (Items l)) r.
Proof.
  intros HP Hopen Hl.
  destruct (LKeys_range_enumerated C bucket pattern f (range_keys C (Items l)) tx l
              HP Hl) as (r & Hloop & Henum).
  exists r. split; [|done].
  unfold LKeys, bind, checkTxIsClosed, getList. by rewrite Hopen, Hl.
Qed.

(** When the match reports no error on a key, the enumeration stops there
    exactly when the key is handed to the callback and the callback answers
    false. *)
Lemma stops_handed (t : Z) (l : List) (pattern : string) f (key : string) :
  (path_Match C pattern key).2 = None ->
  stops C t l pattern f key = handed C t l pattern key && negb (f key).
Proof.
  unfold stops, handed. destruct (path_Match C pattern key) as [m err].
  cbn [fst snd]. intros ->. cbn [isSome orb].
  destruct (visited C t l key); [|done]. cbn [andb].
  destruct m; [by rewrite bool_decide_eq_true_2|by rewrite bool_decide_eq_false_2].
Qed.

Lemma filter_none {A} (P : A -> Prop) `{!∀ x, Decision (P x)} (xs : list A) :
  Forall (fun x => ¬ P x) xs -> filter P xs = [].
Proof.
  induction 1 as [|x xs Hx _ IH]; [done|]. by rewrite filter_cons_False.
Qed.

End EnumerationCorollaries.

(** X10.  LKeys with a callback that always answers true and a pattern on
    which the match reports no error, the queries being pure: the call
    walks all the keys, returns no error and leaves the state as it was;
    the keys handed to the callback are, in the order of the walk, exactly
    the keys that are among the items, not reported expired and matched by
    the pattern. *)
Theorem LKeys_collects_every_match (C : Collab) (bucket pattern : string)
    (f : string -> bool) (tx : Tx) (l : List) :
  Pure C -> closed tx = false -> lists tx !! bucket = Some l ->
  (∀ key, f key = true) ->
  (∀ key, key ∈ range_keys C (Items l) -> (path_Match C pattern key).2 = None) ->
  LKeys C bucket pattern f tx =
  Some ((filter (fun key => handed C (now tx) l pattern key = true)
                (range_keys C (Items l)), None), tx).
Proof.
  intros HP Hopen Hl Hf Hmatch.
  destruct (LKeys_run C bucket pattern f tx l HP Hopen Hl) as (r & -> & Henum).
  destruct Henum as [[_ ->]|(ks1 & k & ks2 & Hks & _ & Hstop & _)]; [done|].
  rewrite stops_handed, Hf, andb_false_r in Hstop; [done|].
  apply Hmatch. rewrite Hks, elem_of_app, elem_of_cons. by eauto.
Qed.

Lemma LKeys_collects_every_match_witness :
  LKeys (Sample.collab None) "b" "*" (fun _ => true) Sample.tx0 =
  Some ((filter (fun key => handed (Sample.collab None) (now Sample.tx0) Sample.l0
                              "*" key = true)
                (range_keys (Sample.collab None) (Items Sample.l0)), None),
        Sample.tx0).
Proof.
  apply (LKeys_collects_every_match (Sample.collab None) "b" "*" (fun _ => true)
           Sample.tx0 Sample.l0 (Sample_Pure None));
    first [done | vm_compute; reflexivity].
Defined.

(** X11.  LKeys with a callback that always answers false and a pattern on
    which the match reports no error, the queries being pure: the callback
    is invoked at most once, on the first key of the walk that is among the
    items, not reported expired and matched by the pattern, and the call
    returns no error (stopping early is not an error). *)
Theorem LKeys_stops_at_first_match (C : Collab) (bucket pattern : string)
    (f : string -> bool) (tx : Tx) (l : List) :
  Pure C -> closed tx = false -> lists tx !! bucket = Some l ->
  (∀ key, f key = false) ->
  (∀ key, key ∈ range_keys C (Items l) -> (path_Match C pattern key).2 = None) ->
  LKeys C bucket pattern f tx =
  Some ((take 1 (filter (fun key => handed C (now tx) l pattern key = true)
                        (range_keys C (Items l))), None), tx).
Proof.
  intros HP Hopen Hl Hf Hmatch.
  destruct (LKeys_run C bucket pattern f tx l HP Hopen Hl) as (r & -> & Henum).
  assert (Hnone : ∀ ks : list string,
            (∀ key, key ∈ ks -> key ∈ range_keys C (Items l)) ->
            Forall (fun k => stops C (now tx) l pattern f k = false) ks ->
            filter (fun key => handed C (now tx) l pattern key = true) ks = []).
  { intros ks Hsub Hall. apply filter_none, Forall_forall. intros k Hk.
    rewrite Forall_forall in Hall. specialize (Hall k Hk).
    rewrite stops_handed, Hf, andb_true_r in Hall by by apply Hmatch, Hsub.
    by rewrite Hall. }
  destruct Henum as [[Hall ->]|(ks1 & k & ks2 & Hks & Hall & Hstop & ->)].
  - by rewrite Hnone.
  - assert (Hk : k ∈ range_keys C (Items l)).
    { rewrite Hks, elem_of_app, elem_of_cons. by eauto. }
    rewrite stops_handed, Hf, andb_true_r in Hstop by by apply Hmatch.
    assert (Hks1 : filter (fun key => handed C (now tx) l pattern key = true) ks1
                   = []).
    { apply Hnone; [|done]. intros key Hin. rewrite Hks, elem_of_app. by left. }
    rewrite Hks, !filter_app, Hks1.
    rewrite filter_cons_True, filter_cons_True, filter_nil by done.
    cbn [app take]. by rewrite (Hmatch k Hk).
Qed.

Lemma LKeys_stops_at_first_match_witness :
  LKeys (Sample.collab None) "b" "*" (fun _ => false) Sample.tx0 =
  Some ((take 1 (filter (fun key => handed (Sample.collab None) (now Sample.tx0)
                                      Sample.l0 "*" key = true)
                        (range_keys (Sample.collab None) (Items Sample.l0))), None),
        Sample.tx0).
Proof.
  apply (LKeys_stops_at_first_match (Sample.collab None) "b" "*" (fun _ => false)
           Sample.tx0 Sample.l0 (Sample_Pure None));
    first [done | vm_compute; reflexivity].
Defined.

(** ** Panics *)

Section Safety.

Context (C : Collab).

Implicit Types (tx : Tx) (bucket key : string).

Lemma safe_ret {A} bucket (a : A) : safe bucket (ret a).
Proof. intros tx Hreg. by exists a, tx. Qed.

Lemma safe_bind {A B} bucket (m : M A) (k : A -> M B) :
  safe bucket m -> (∀ a, safe bucket (k a)) -> safe bucket (bind m k).
Proof.
  intros Hm Hk tx Hreg. unfold bind.
  destruct (Hm tx Hreg) as (a & tx1 & -> & Hreg1). by apply Hk.
Qed.

Lemma safe_checkTx bucket : safe bucket checkTxIsClosed.
Proof. intros tx Hreg. by eexists _, tx. Qed.

Lemma safe_getList bucket : safe bucket (getList bucket).
Proof. intros tx Hreg. by eexists _, tx. Qed.

Lemma safe_readList {R} bucket (g : List -> R) : safe bucket (readList bucket g).
Proof.
  intros tx [l Hl]. exists (g l), tx. rewrite (readList_spec _ _ _ l Hl).
  by eauto.
Qed.

Lemma safe_call {R} bucket (m : Z -> List -> R * List) : safe bucket (call bucket m).
Proof.
  intros tx [l Hl]. rewrite (call_spec _ _ _ l Hl). eexists _, _.
  split; [done|]. rewrite setList_lookup. by eauto.
Qed.

Lemma safe_CheckExpire bucket key : safe bucket (CheckExpire C bucket key).
Proof. intros tx Hreg. by apply CheckExpire_total. Qed.

(** A push never panics, on any state. *)
Lemma push_returns bucket key (flag : Flag) (values : list string) tx :
  ∃ r tx', push C bucket key flag values tx = Some (r, tx') ∧
           lists tx' = lists tx.
Proof.
  destruct (push_spec C bucket key flag values tx) as (n & r & -> & _).
  by eexists _, _.
Qed.

Lemma safe_push bucket key (flag : Flag) (values : list string) :
  safe bucket (push C bucket key flag values).
Proof.
  intros tx Hreg.
  destruct (push_returns bucket key flag values tx) as (r & tx' & -> & Hl).
  exists r, tx'. by rewrite Hl.
Qed.

End Safety.

Ltac safe_step :=
  first
    [ apply safe_ret | apply safe_checkTx | apply safe_getList
    | apply safe_readList | apply safe_call | apply safe_CheckExpire
    | apply safe_push
    | apply safe_bind; [|intros ?]
    | match goal with
      | |- safe _ (match ?x with _ => _ end) => destruct x
      end ].

Section SafeRuns.

Context (C : Collab).

Lemma safe_LKeys_range (bucket pattern : string) f (keys : list string) :
  safe bucket (LKeys_range C bucket pattern f keys).
Proof.
  induction keys as [|key rest IH]; cbn [LKeys_range]; [apply safe_ret|].
  repeat safe_step; done.
Qed.

(** On a registered bucket no operation panics. *)
Lemma run_safe (c : Call) : safe (bucket_of c) (run C c).
Proof.
  destruct c; cbn [run bucket_of];
    unfold fmapM, RPop, LPop, RPeek, LPeek, RPush, LPush, LSize, LRange, LRem,
      LSize, LSet, LTrim, LRemByIndex, LKeys, ExpireList, GetListTTL;
    repeat (cbn zeta; safe_step); apply safe_LKeys_range.
Qed.

(** On a closed transaction every operation returns ErrTxClosed. *)
Lemma run_closed (c : Call) (tx : Tx) :
  closed tx = true ->
  ∃ r, run C c tx = Some (r, tx) ∧ reply_err r = Some ErrTxClosed.
Proof.
  intros Hclosed.
  destruct c; cbn [run];
    unfold fmapM, RPop, LPop, RPeek, LPeek, RPush, LPush, LSize, LRange, LRem,
      LSize, LSet, LTrim, LRemByIndex, LKeys, ExpireList, GetListTTL,
      bind, checkTxIsClosed, ret;
    rewrite Hclosed; cbn beta iota;
    eexists; (split; [reflexivity|]); reflexivity.
Qed.

(** Without a structure for the bucket, an operation that is no push
    returns. *)
Lemma run_unregistered (c : Call) (tx : Tx) :
  closed tx = false -> lists tx !! bucket_of c = None -> is_push c = false ->
  ∃ r, run C c tx = Some (r, tx).
Proof.
  intros Hopen Hnil Hpush.
  destruct c; try discriminate Hpush; cbn [bucket_of] in Hnil; cbn [run];
    unfold fmapM, RPop, LPop, RPeek, LPeek, LSize, LRange, LRem, LSize, LSet,
      LTrim, LRemByIndex, LKeys, ExpireList, GetListTTL,
      bind, checkTxIsClosed, getList, ret;
    rewrite Hopen, ?Hnil; cbn beta iota; rewrite ?Hnil;
    eexists; reflexivity.
Qed.

(** A push on a bucket without a structure: the call panics exactly when
    [IsExpire] dereferences the nil structure. *)
Lemma push_unregistered (bucket key : string) (flag : Flag) (values : list string)
    (tx : Tx) :
  closed tx = false -> lists tx !! bucket = None ->
  (do err <- checkTxIsClosed;
   match err with
   | Some e0 => ret (Some e0)
   | None =>
       do expired <- CheckExpire C bucket key;
       if expired then ret (Some ErrKeyNotFound)
       else if Contains key SeparatorForListKey then ret (Some ErrSeparatorForListKey)
       else push C bucket key flag values
   end) tx = None <-> nil_IsExpire C key = None.
Proof.
  intros Hopen Hnil. unfold bind, checkTxIsClosed. rewrite Hopen.
  rewrite (CheckExpire_nil C _ _ _ Hnil).
  destruct (nil_IsExpire C key) as [[]|]; [done| |done].
  destruct (Contains key SeparatorForListKey); [done|].
  destruct (push_returns C bucket key flag values tx) as (r & tx' & -> & _).
  done.
Qed.

End SafeRuns.

(** X12.  The only way an operation can panic (dereference a nil list
    structure) is a push, RPush or LPush, on an open transaction and a
    bucket without a structure, when [IsExpire] dereferences its nil
    receiver; every other call of every operation returns. *)
Theorem panics_only_push_on_missing_bucket (C : Collab) (c : Call) (tx : Tx) :
  run C c tx = None <->
  ∃ key, is_push c = true ∧ gate_key c = Some key ∧ closed tx = false ∧
         lists tx !! bucket_of c = None ∧ nil_IsExpire C key = None.
Proof.
  split.
  - intros Hpanic.
    destruct (closed tx) eqn:Hopen.
    { destruct (run_closed C c tx Hopen) as (r & Hrun & _). congruence. }
    destruct (lists tx !! bucket_of c) as [l|] eqn:Hl.
    { destruct (run_safe C c tx) as (r & tx' & Hrun & _); [by eauto|]. congruence. }
    destruct (is_push c) eqn:Hpush.
    2:{ destruct (run_unregistered C c tx Hopen Hl Hpush) as (r & Hrun). congruence. }
    destruct c; try discriminate Hpush; cbn [bucket_of] in Hl;
      cbn [run] in Hpanic; unfold fmapM, bind at 1 in Hpanic;
      exists key; (split; [done|]); (split; [done|]); (split; [done|]);
      (split; [done|]).
    + apply (push_unregistered C bucket key DataRPushFlag values tx Hopen Hl).
      destruct (RPush C bucket key values tx) as [[? ?]|] eqn:Hrun; [done|].
      exact Hrun.
    + apply (push_unregistered C bucket key DataLPushFlag values tx Hopen Hl).
      destruct (LPush C bucket key values tx) as [[? ?]|] eqn:Hrun; [done|].
      exact Hrun.
  - intros (key & Hpush & Hkey & Hopen & Hl & Hnil).
    destruct c; try discriminate Hpush; injection Hkey as ->;
      cbn [bucket_of] in Hl; cbn [run]; unfold fmapM, bind at 1.
    + unfold RPush.
      by rewrite (proj2 (push_unregistered C bucket key _ values tx Hopen Hl) Hnil).
    + unfold LPush.
      by rewrite (proj2 (push_unregistered C bucket key _ values tx Hopen Hl) Hnil).
Qed.

(** X13.  ExpireList on an open transaction and a registered bucket checks
    neither the expiration gate nor the presence of the key: for every key
    it returns, and afterwards the structure has the same items, the time
    to live and time stamp of every other key are what they were, and the
    key has the given time to live with the clock reading, as a 64-bit
    value, for time stamp. *)
Theorem ExpireList_touches_one_key (C : Collab) (bucket key : string) (ttl : Z)
    (tx : Tx) (l : List) :
  closed tx = false ->
  lists tx !! bucket = Some l ->
  ∃ r tx' l',
    ExpireList C bucket key ttl tx = Some (r, tx') ∧
    lists tx' !! bucket = Some l' ∧
    Items l' = Items l ∧
    TTL l' !! key = Some ttl ∧
    TimeStamp l' !! key = Some (uint64 (now tx)) ∧
    0 <= uint64 (now tx) < 2 ^ 64 ∧
    ∀ key', key' ≠ key ->
      TTL l' !! key' = TTL l !! key' ∧ TimeStamp l' !! key' = TimeStamp l !! key'.
Proof.
  intros Hopen Hl. rewrite (ExpireList_run C bucket key ttl tx l Hopen Hl).
  set (l' := withTTL l key ttl (now tx)).
  assert (Hfacts : Items l' = Items l ∧ TTL l' !! key = Some ttl ∧
            TimeStamp l' !! key = Some (uint64 (now tx)) ∧
            0 <= uint64 (now tx) < 2 ^ 64 ∧
            ∀ key', key' ≠ key ->
              TTL l' !! key' = TTL l !! key' ∧
              TimeStamp l' !! key' = TimeStamp l !! key').
  { unfold l', withTTL. cbn [Items TTL TimeStamp].
    rewrite !lookup_insert_eq.
    split; [done|]. split; [done|]. split; [done|].
    split; [apply Z.mod_pos_bound; lia|].
    intros key' Hne. by rewrite !lookup_insert_ne. }
  destruct (put_err C _ _); eexists _, _, l';
    (split; [reflexivity|]); (split; [apply setList_lookup | exact Hfacts]).
Qed.

Lemma ExpireList_touches_one_key_witness :
  ∃ r tx' l',
    ExpireList (Sample.collab None) "b" "nokey" 30 Sample.tx0 = Some (r, tx') ∧
    lists tx' !! "b" = Some l' ∧
    Items l' = Items Sample.l0 ∧
    TTL l' !! "nokey" = Some 30 ∧
    TimeStamp l' !! "nokey" = Some (uint64 (now Sample.tx0)) ∧
    0 <= uint64 (now Sample.tx0) < 2 ^ 64 ∧
    ∀ key', key' ≠ "nokey" ->
      TTL l' !! key' = TTL Sample.l0 !! key' ∧
      TimeStamp l' !! key' = TimeStamp Sample.l0 !! key'.
Proof.
  apply (ExpireList_touches_one_key (Sample.collab None) "b" "nokey" 30
           Sample.tx0 Sample.l0); vm_compute; reflexivity.
Defined.



